(** * Receipt processor: a shallow embedding of [Main.go]

    The program is a small HTTP service.  [processReceipt] validates a decoded
    receipt and files it in an in-memory map under a fresh identifier;
    [getPoints] looks a receipt up and scores it with [computePoints].

    Conventions of the embedding:
    - a Go [string] is a sequence of bytes: [String.string], one [ascii] per byte;
    - a Go [int] is the 64-bit two's complement integer of the 64-bit targets,
      carried as a [Z] that every arithmetic operation wraps ([Int.wrap]);
    - a Go [float64] is an IEEE 754 binary64 value: [spec_float] with
      precision 53 and maximal exponent 1024;
    - a run-time panic is the [Panic] outcome of the [outcome] monad;
    - the map guarded by [storageMutex] is a [gmap string Receipt]; a handler
      holds the lock around its single map access, so each access is one
      atomic step of the sequential model.

    The functions of the Go library that [computePoints] and the handlers
    call ([unicode/utf8], [unicode], [strings], [strconv], [math]) are
    embedded first, each after its source in the Go distribution; the
    program follows, then the properties. *)

From Stdlib Require Import ZArith Zbitwise List Bool Ascii String Lia Permutation.
From Stdlib Require Import Floats.SpecFloat.
From stdpp Require Import gmap strings.

Import ListNotations.
Open Scope string_scope.
Open Scope Z_scope.

(** ** Go's [int] on a 64-bit target *)

Module Int.

Definition size : Z := 64.
Definition min : Z := - 2 ^ 63.
Definition max : Z := 2 ^ 63 - 1.

(** Reduction of a mathematical integer to the representable range. *)
Definition wrap (z : Z) : Z := (z + 2 ^ 63) mod 2 ^ 64 - 2 ^ 63.

Definition add (a b : Z) : Z := wrap (a + b).
Definition mul (a b : Z) : Z := wrap (a * b).
(** [/] and [%] truncate towards zero. *)
Definition div (a b : Z) : Z := wrap (Z.quot a b).
Definition rem (a b : Z) : Z := Z.rem a b.

Definition in_range (z : Z) : Prop := min <= z <= max.

End Int.

(** ** Outcomes: a value, or a run-time panic *)

Inductive outcome (A : Type) : Type :=
| Return (a : A)
| Panic (msg : string).

Arguments Return {A} a.
Arguments Panic {A} msg.

#[global] Instance outcome_ret : MRet outcome := fun A a => Return a.

#[global] Instance outcome_bind : MBind outcome := fun A B k o =>
  match o with
  | Return a => k a
  | Panic msg => Panic msg
  end.

(** Indexing a slice, [a[i]]: out of range is a panic. *)
Definition index {A : Type} (a : list A) (i : nat) : outcome A :=
  match nth_error a i with
  | Some x => Return x
  | None => Panic "index out of range"
  end.

(** ** Bytes *)

Definition byte : Type := ascii.

(** The value of a byte, 0 to 255. *)
Definition code (c : byte) : Z := Z.of_N (N_of_ascii c).

Arguments code c%_char.

(** [s[i:]] and [s[:i]]. *)
Fixpoint drop (i : nat) (s : string) : string :=
  match i, s with
  | O, _ => s
  | S i', String _ s' => drop i' s'
  | S _, EmptyString => EmptyString
  end.

Fixpoint take (i : nat) (s : string) : string :=
  match i, s with
  | O, _ => EmptyString
  | S i', String c s' => String c (take i' s')
  | S _, EmptyString => EmptyString
  end.

Definition len (s : string) : nat := String.length s.

(** [s[i]] for an index in range (the callers below check the range first). *)
Definition at_ (s : string) (i : Z) : Z :=
  match String.get (Z.to_nat i) s with
  | Some c => code c
  | None => 0
  end.

(** [s[lo:hi]]. *)
Definition slice (s : string) (lo hi : nat) : string := take (hi - lo) (drop lo s).

(** ** Package [unicode/utf8] *)

Module utf8.

Definition rune : Type := Z.

Definition RuneError : rune := 0xFFFD.
Definition RuneSelf : Z := 0x80.
Definition UTFMax : Z := 4.

Definition maskx : Z := 0x3F.
Definition mask2 : Z := 0x1F.
Definition mask3 : Z := 0x0F.
Definition mask4 : Z := 0x07.
Definition locb : Z := 0x80.
Definition hicb : Z := 0xBF.

(** Entries of the table [first]: the high nibble selects the accept range
    of the second byte, the low three bits give the size of the encoding. *)
Definition xx : Z := 0xF1.
Definition as_ : Z := 0xF0.
Definition s1 : Z := 0x02.
Definition s2 : Z := 0x13.
Definition s3 : Z := 0x03.
Definition s4 : Z := 0x23.
Definition s5 : Z := 0x34.
Definition s6 : Z := 0x04.
Definition s7 : Z := 0x44.

Definition first (b : Z) : Z :=
  if b <? 0x80 then as_
  else if b <? 0xC2 then xx
  else if b <? 0xE0 then s1
  else if b =? 0xE0 then s2
  else if b <? 0xED then s3
  else if b =? 0xED then s4
  else if b <? 0xF0 then s3
  else if b =? 0xF0 then s5
  else if b <? 0xF4 then s6
  else if b =? 0xF4 then s7
  else xx.

Definition acceptRanges (i : Z) : Z * Z :=
  if i =? 0 then (locb, hicb)
  else if i =? 1 then (0xA0, hicb)
  else if i =? 2 then (locb, 0x9F)
  else if i =? 3 then (0x90, hicb)
  else (locb, 0x8F).

(** [DecodeRuneInString]: the first rune of [s] and its width in bytes;
    an invalid or truncated encoding is [RuneError] of width 1. *)
Definition DecodeRuneInString (s : string) : rune * nat :=
  match s with
  | EmptyString => (RuneError, 0%nat)
  | String b0 t0 =>
      let c0 := code b0 in
      let x := first c0 in
      if as_ <=? x then
        (* the mask of the source is all ones exactly when [x = xx] *)
        (if Z.odd x then RuneError else c0, 1%nat)
      else
        let sz := Z.land x 7 in
        let accept := acceptRanges (Z.shiftr x 4) in
        if Z.of_nat (len s) <? sz then (RuneError, 1%nat)
        else
          match t0 with
          | EmptyString => (RuneError, 1%nat)
          | String b1 t1 =>
              let c1 := code b1 in
              if (c1 <? fst accept) || (snd accept <? c1) then (RuneError, 1%nat)
              else if sz <=? 2 then
                (Z.lor (Z.shiftl (Z.land c0 mask2) 6) (Z.land c1 maskx), 2%nat)
              else
                match t1 with
                | EmptyString => (RuneError, 1%nat)
                | String b2 t2 =>
                    let c2 := code b2 in
                    if (c2 <? locb) || (hicb <? c2) then (RuneError, 1%nat)
                    else if sz <=? 3 then
                      (Z.lor (Z.lor (Z.shiftl (Z.land c0 mask3) 12)
                                    (Z.shiftl (Z.land c1 maskx) 6))
                             (Z.land c2 maskx), 3%nat)
                    else
                      match t2 with
                      | EmptyString => (RuneError, 1%nat)
                      | String b3 _ =>
                          let c3 := code b3 in
                          if (c3 <? locb) || (hicb <? c3) then (RuneError, 1%nat)
                          else
                            (Z.lor (Z.lor (Z.lor (Z.shiftl (Z.land c0 mask4) 18)
                                                 (Z.shiftl (Z.land c1 maskx) 12))
                                          (Z.shiftl (Z.land c2 maskx) 6))
                                   (Z.land c3 maskx), 4%nat)
                      end
                end
          end
  end.

(** [RuneStart]: the byte is not a continuation byte. *)
Definition RuneStart (b : Z) : bool := negb (Z.land b 0xC0 =? 0x80).

(** The backwards scan of [DecodeLastRuneInString]:
    [for start--; start >= lim; start-- { if RuneStart(s[start]) { break } }];
    it looks at no more than [UTFMax - 1] bytes. *)
Fixpoint scanStart (n : nat) (s : string) (start lim : Z) : Z :=
  match n with
  | O => start
  | S n' =>
      if start <? lim then start
      else if RuneStart (at_ s start) then start
      else scanStart n' s (start - 1) lim
  end.

Definition DecodeLastRuneInString (s : string) : rune * nat :=
  let end_ := Z.of_nat (len s) in
  if end_ =? 0 then (RuneError, 0%nat)
  else
    let start := end_ - 1 in
    let r := at_ s start in
    if r <? RuneSelf then (r, 1%nat)
    else
      let lim := Z.max (end_ - UTFMax) 0 in
      let start := scanStart (Z.to_nat UTFMax) s (start - 1) lim in
      let start := if start <? 0 then 0 else start in
      let '(r, size) := DecodeRuneInString (slice s (Z.to_nat start) (Z.to_nat end_)) in
      if negb (start + Z.of_nat size =? end_) then (RuneError, 1%nat)
      else (r, size).

(** [for i, r := range s]: the pairs of a byte offset and the rune decoded
    there.  [skip] counts the bytes of the current rune still to pass. *)
Fixpoint rangeFrom (i : nat) (skip : nat) (s : string) : list (nat * rune) :=
  match s with
  | EmptyString => []
  | String _ s' =>
      match skip with
      | S k => rangeFrom (S i) k s'
      | O =>
          let '(r, size) := DecodeRuneInString s in
          (i, r) :: rangeFrom (S i) (size - 1) s'
      end
  end.

Definition range (s : string) : list (nat * rune) := rangeFrom 0 0 s.

End utf8.

(** ** Package [unicode] *)

Module unicode.

Definition MaxLatin1 : Z := 0xFF.

(** The ranges of the table [White_Space] above Latin-1. *)
Definition White_Space_above_Latin1 (r : Z) : bool :=
  (r =? 0x1680) || ((0x2000 <=? r) && (r <=? 0x200A))
  || ((0x2028 <=? r) && (r <=? 0x2029)) || (r =? 0x202F) || (r =? 0x205F)
  || (r =? 0x3000).

Definition IsSpace (r : utf8.rune) : bool :=
  if (0 <=? r) && (r <=? MaxLatin1) then
    (r =? 0x09) || (r =? 0x0A) || (r =? 0x0B) || (r =? 0x0C) || (r =? 0x0D)
    || (r =? 0x20) || (r =? 0x85) || (r =? 0xA0)
  else White_Space_above_Latin1 r.

End unicode.

(** ** Package [strings] *)

Module strings.

Definition HasPrefix (s prefix : string) : bool :=
  (len prefix <=? len s)%nat && String.eqb (take (len prefix) s) prefix.

Definition HasSuffix (s suffix : string) : bool :=
  (len suffix <=? len s)%nat && String.eqb (drop (len s - len suffix) s) suffix.

Definition TrimPrefix (s prefix : string) : string :=
  if HasPrefix s prefix then drop (len prefix) s else s.

Definition TrimSuffix (s suffix : string) : string :=
  if HasSuffix s suffix then take (len s - len suffix) s else s.

(** [Index]: the offset of the first instance of [substr] in [s], or -1. *)
Fixpoint indexFrom (i : Z) (s substr : string) : Z :=
  if HasPrefix s substr then i
  else
    match s with
    | EmptyString => -1
    | String _ s' => indexFrom (i + 1) s' substr
    end.

Definition Index (s substr : string) : Z := indexFrom 0 s substr.

(** [Count]: the number of non-overlapping instances of [substr] in [s];
    [skip] counts the bytes of the instance just found still to pass. *)
Fixpoint countFrom (skip : nat) (s substr : string) : nat :=
  match s with
  | EmptyString => 0%nat
  | String _ s' =>
      match skip with
      | S k => countFrom k s' substr
      | O =>
          if HasPrefix s substr
          then S (countFrom (len substr - 1) s' substr)
          else countFrom 0 s' substr
      end
  end.

Definition Count (s substr : string) : nat :=
  match substr with
  | EmptyString => S (List.length (utf8.range s))
  | _ => countFrom 0 s substr
  end.

(** [explode]: one string per UTF-8 sequence of [s]. *)
Fixpoint explode (n : nat) (s : string) : list string :=
  match n with
  | O => []
  | S n' =>
      match s with
      | EmptyString => []
      | _ =>
          match n' with
          | O => [s]
          | _ =>
              let '(_, size) := utf8.DecodeRuneInString s in
              take size s :: explode n' (drop size s)
          end
      end
  end.

(** The loop of [genSplit]: at most [n] cuts, each at the next instance of
    [sep]; what remains is the last piece. *)
Fixpoint splitLoop (n : nat) (s sep : string) : list string :=
  match n with
  | O => [s]
  | S n' =>
      let m := Index s sep in
      if m <? 0 then [s]
      else take (Z.to_nat m) s :: splitLoop n' (drop (Z.to_nat m + len sep) s) sep
  end.

(** [Split(s, sep)] is [genSplit(s, sep, 0, -1)]. *)
Definition Split (s sep : string) : list string :=
  match sep with
  | EmptyString => explode (List.length (utf8.range s)) s
  | _ => splitLoop (Nat.min (Count s sep + 1) (len s + 1) - 1) s sep
  end.

(** The ASCII white space of the table [asciiSpace]. *)
Definition asciiSpace (c : Z) : bool :=
  (c =? 0x09) || (c =? 0x0A) || (c =? 0x0B) || (c =? 0x0C) || (c =? 0x0D)
  || (c =? 0x20).

(** [indexFunc]: the offset of the first rune [r] with [f r = truth], or -1. *)
Fixpoint firstWith (f : utf8.rune -> bool) (truth : bool)
         (l : list (nat * utf8.rune)) : Z :=
  match l with
  | [] => -1
  | (i, r) :: l' => if Bool.eqb (f r) truth then Z.of_nat i else firstWith f truth l'
  end.

Definition indexFunc (s : string) (f : utf8.rune -> bool) (truth : bool) : Z :=
  firstWith f truth (utf8.range s).

(** [lastIndexFunc]: the loop
    [for i := len(s); i > 0; { r, size := DecodeLastRuneInString(s[0:i]); i -= size; ... }].
    The recursion runs over every [i] downwards; [skip] counts the values
    of [i] that the loop jumps over after a rune of more than one byte. *)
Fixpoint lastIndexLoop (s : string) (f : utf8.rune -> bool) (truth : bool)
         (i : nat) (skip : nat) : Z :=
  match i with
  | O => -1
  | S i' =>
      match skip with
      | S k => lastIndexLoop s f truth i' k
      | O =>
          let '(r, size) := utf8.DecodeLastRuneInString (take i s) in
          if Bool.eqb (f r) truth then Z.of_nat (i - size)
          else lastIndexLoop s f truth i' (size - 1)
      end
  end.

Definition lastIndexFunc (s : string) (f : utf8.rune -> bool) (truth : bool) : Z :=
  lastIndexLoop s f truth (len s) 0.

Definition TrimLeftFunc (s : string) (f : utf8.rune -> bool) : string :=
  let i := indexFunc s f false in
  if i =? -1 then EmptyString else drop (Z.to_nat i) s.

Definition TrimRightFunc (s : string) (f : utf8.rune -> bool) : string :=
  let i := lastIndexFunc s f false in
  let i :=
    if (0 <=? i) && (utf8.RuneSelf <=? at_ s i) then
      let '(_, wid) := utf8.DecodeRuneInString (drop (Z.to_nat i) s) in
      i + Z.of_nat wid
    else i + 1 in
  take (Z.to_nat i) s.

Definition TrimFunc (s : string) (f : utf8.rune -> bool) : string :=
  TrimRightFunc (TrimLeftFunc s f) f.

(** The two scans of [TrimSpace] over ASCII bytes.  Each stops at the first
    byte that is not ASCII white space; [inl] is the offset it stopped at,
    [inr] the offset of a byte outside ASCII, where the source hands over to
    the Unicode-aware functions. *)
Fixpoint scanLeft (start : nat) (s : string) : nat + nat :=
  match s with
  | EmptyString => inl start
  | String c s' =>
      if utf8.RuneSelf <=? code c then inr start
      else if negb (asciiSpace (code c)) then inl start
      else scanLeft (S start) s'
  end.

Fixpoint scanRight (s : string) (start : nat) (stop : nat) : nat + nat :=
  match stop with
  | O => inl stop
  | S stop' =>
      if (stop <=? start)%nat then inl stop
      else
        let c := at_ s (Z.of_nat stop') in
        if utf8.RuneSelf <=? c then inr stop
        else if negb (asciiSpace c) then inl stop
        else scanRight s start stop'
  end.

Definition TrimSpace (s : string) : string :=
  match scanLeft 0 s with
  | inr start => TrimFunc (drop start s) unicode.IsSpace
  | inl start =>
      match scanRight s start (len s) with
      | inr stop => TrimRightFunc (slice s start stop) unicode.IsSpace
      | inl stop => slice s start stop
      end
  end.

End strings.

(** ** Go's [float64] *)

Module float64.

Definition prec : Z := 53.
Definition emax : Z := 1024.

Definition t : Type := spec_float.

Definition zero : t := S754_zero false.
Definition NaN : t := S754_nan.
Definition Inf (neg : bool) : t := S754_infinity neg.

Definition mul : t -> t -> t := SFmul prec emax.
Definition eqb : t -> t -> bool := SFeqb.

(** The float nearest to [± num / den], ties to even; an infinity when the
    quotient is beyond the largest finite float. *)
Definition ofRatio (neg : bool) (num den : positive) : t :=
  let '(q, e, l) := SFdiv_core_binary prec emax (Zpos num) 0 (Zpos den) 0 in
  binary_round_aux prec emax neg q e l.

(** The float nearest to [± m * 2 ^ e]. *)
Definition ofBinary (neg : bool) (m : positive) (e : Z) : t :=
  binary_round prec emax neg m e.

(** The float nearest to [m * 10 ^ e], for [m] positive. *)
Definition ofDecimal (neg : bool) (m : positive) (e : Z) : t :=
  match e with
  | Z0 => ofRatio neg m 1
  | Zpos p => ofRatio neg (m * 10 ^ p) 1
  | Zneg p => ofRatio neg m (10 ^ p)
  end.

(** The untyped constants [0.2] and [0.25] of the source, as the compiler
    converts them. *)
Definition c0_2 : t := Eval vm_compute in ofDecimal false 2 (-1).
Definition c0_25 : t := Eval vm_compute in ofDecimal false 25 (-2).

(** The integer part of a finite float, truncated towards zero. *)
Definition trunc (x : t) : option Z :=
  match x with
  | S754_zero _ => Some 0
  | S754_finite s m e =>
      let a := match e with
               | Zneg p => Zpos m / 2 ^ Zpos p
               | _ => Zpos m * 2 ^ e
               end in
      Some (if s then - a else a)
  | _ => None
  end.

End float64.

(** ** Package [strconv] *)

Module strconv.

Inductive error : Type := ErrSyntax | ErrRange.

(** [lower(c)] is [c | ('x' - 'X')]. *)
Definition lower (c : Z) : Z := Z.lor c (code "x" - code "X").

Definition isDigit (c : Z) : bool := (code "0" <=? c) && (c <=? code "9").

(** *** Integers *)

Definition maxUint64 : Z := 2 ^ 64 - 1.

(** The loop of [ParseUint(s, 10, 64)] from the value [n] read so far.
    It stops with a range error at the first digit that overflows, without
    looking at the rest of the text. *)
Fixpoint ParseUint_loop (n : Z) (s : string) : Z * option error :=
  match s with
  | EmptyString => (n, None)
  | String b s' =>
      let c := code b in
      let base := 10 in
      let cutoff := maxUint64 / 10 + 1 in
      let maxVal := maxUint64 in
      if negb (isDigit c || ((code "a" <=? lower c) && (lower c <=? code "z")))
      then (0, Some ErrSyntax)
      else
        let d := if isDigit c then c - code "0" else lower c - code "a" + 10 in
        if base <=? d then (0, Some ErrSyntax)
        else if cutoff <=? n then (maxVal, Some ErrRange)
        else
          let n := n * base in
          let n1 := (n + d) mod 2 ^ 64 in
          if (n1 <? n) || (maxVal <? n1) then (maxVal, Some ErrRange)
          else ParseUint_loop n1 s'
  end.

Definition ParseUint (s : string) : Z * option error :=
  match s with
  | EmptyString => (0, Some ErrSyntax)
  | _ => ParseUint_loop 0 s
  end.

(** [ParseInt(s, 10, 0)]: the bit size 0 stands for [IntSize]. *)
Definition ParseInt (s : string) : Z * option error :=
  match s with
  | EmptyString => (0, Some ErrSyntax)
  | String b s' =>
      let neg := code b =? code "-" in
      let s := if (code b =? code "+") || neg then s' else s in
      match ParseUint s with
      | (_, Some ErrSyntax) => (0, Some ErrSyntax)
      | (un, _) =>
          let cutoff := 2 ^ (Int.size - 1) in
          if negb neg && (cutoff <=? un) then (cutoff - 1, Some ErrRange)
          else if neg && (cutoff <? un) then (- cutoff, Some ErrRange)
          else (if neg then - un else un, None)
      end
  end.

(** The digit loop of the fast path of [Atoi]; the byte subtraction
    [ch -= '0'] wraps, so a byte below ['0'] also ends above 9. *)
Fixpoint Atoi_loop (n : Z) (s : string) : option Z :=
  match s with
  | EmptyString => Some n
  | String b s' =>
      let ch := (code b - code "0") mod 2 ^ 8 in
      if 9 <? ch then None else Atoi_loop (n * 10 + ch) s'
  end.

Definition Atoi (s : string) : Z * option error :=
  let sLen := Z.of_nat (len s) in
  if (0 <? sLen) && (sLen <? 19) then
    match s with
    | EmptyString => (0, Some ErrSyntax)
    | String b s' =>
        let signed := (code b =? code "-") || (code b =? code "+") in
        let digits := if signed then s' else s in
        if signed && (len digits <? 1)%nat then (0, Some ErrSyntax)
        else
          match Atoi_loop 0 digits with
          | None => (0, Some ErrSyntax)
          | Some n => (if code b =? code "-" then - n else n, None)
          end
    end
  else ParseInt s.

(** *** Floating point *)

(** [commonPrefixLenIgnoreCase(s, prefix)], for a lower-case [prefix]. *)
Fixpoint commonPrefixLenIgnoreCase (s prefix : string) : nat :=
  match s, prefix with
  | String b s', String p prefix' =>
      let c := code b in
      let c := if (code "A" <=? c) && (c <=? code "Z")
               then c + (code "a" - code "A") else c in
      if negb (c =? code p) then 0%nat
      else S (commonPrefixLenIgnoreCase s' prefix')
  | _, _ => 0%nat
  end.

(** [special]: the texts of the infinities and of NaN; the result is the
    value and the number of bytes read. *)
Definition special (s : string) : option (float64.t * nat) :=
  let inf (neg : bool) (nsign : nat) (s : string) :=
    let n := commonPrefixLenIgnoreCase s "infinity" in
    let n := if (3 <? n)%nat && (n <? 8)%nat then 3%nat else n in
    if (n =? 3)%nat || (n =? 8)%nat
    then Some (float64.Inf neg, (nsign + n)%nat) else None in
  match s with
  | EmptyString => None
  | String b s' =>
      let c := code b in
      if (c =? code "+") || (c =? code "-") then inf (c =? code "-") 1%nat s'
      else if (c =? code "i") || (c =? code "I") then inf false 0%nat s
      else if (c =? code "n") || (c =? code "N") then
        if (commonPrefixLenIgnoreCase s "nan" =? 3)%nat
        then Some (float64.NaN, 3%nat) else None
      else None
  end.

(** [underscoreOK]: every underscore stands between two digits, or between
    a base prefix and a digit.  [saw] is the class of the last byte. *)
Inductive saw : Type := sawStart | sawDigit | sawUnderscore | sawOther.

Fixpoint underscoreOK_loop (hex : bool) (w : saw) (s : string) : bool :=
  match s with
  | EmptyString => match w with sawUnderscore => false | _ => true end
  | String b s' =>
      let c := code b in
      if isDigit c || (hex && (code "a" <=? lower c) && (lower c <=? code "f"))
      then underscoreOK_loop hex sawDigit s'
      else if c =? code "_" then
        match w with
        | sawDigit => underscoreOK_loop hex sawUnderscore s'
        | _ => false
        end
      else
        match w with
        | sawUnderscore => false
        | _ => underscoreOK_loop hex sawOther s'
        end
  end.

Definition underscoreOK (s : string) : bool :=
  let s := match s with
           | String b s' =>
               if (code b =? code "-") || (code b =? code "+") then s' else s
           | _ => s
           end in
  match s with
  | String b0 (String b1 s') =>
      let l := lower (code b1) in
      if (code b0 =? code "0")
         && ((l =? code "b") || (l =? code "o") || (l =? code "x"))
      then underscoreOK_loop (l =? code "x") sawDigit s'
      else underscoreOK_loop false sawStart s
  | _ => underscoreOK_loop false sawStart s
  end.

(** The variables of the digit loop of [readFloat].  The source keeps the
    first 19 digits of the mantissa (16 in base 16) with a flag for the
    rest, and reads the text again where the rest matters; here [mantissa]
    holds every digit, [nd] of them, the number the text denotes. *)
Record digits : Type := mkDigits {
  mantissa : Z;
  nd : Z;
  dp : Z;
  sawdot : bool;
  sawdigits : bool;
  underscores : bool
}.

Fixpoint readDigits (base : Z) (st : digits) (s : string) : digits * string :=
  match s with
  | EmptyString => (st, s)
  | String b s' =>
      let c := code b in
      if c =? code "_" then
        readDigits base
          (mkDigits (mantissa st) (nd st) (dp st) (sawdot st) (sawdigits st) true) s'
      else if c =? code "." then
        if sawdot st then (st, s)
        else
          readDigits base
            (mkDigits (mantissa st) (nd st) (nd st) true (sawdigits st) (underscores st)) s'
      else if isDigit c then
        if (c =? code "0") && (nd st =? 0) then
          readDigits base
            (mkDigits (mantissa st) (nd st) (dp st - 1) (sawdot st) true (underscores st)) s'
        else
          readDigits base
            (mkDigits (mantissa st * base + (c - code "0")) (nd st + 1) (dp st)
                      (sawdot st) true (underscores st)) s'
      else if (base =? 16) && (code "a" <=? lower c) && (lower c <=? code "f") then
        readDigits base
          (mkDigits (mantissa st * 16 + (lower c - code "a" + 10)) (nd st + 1) (dp st)
                    (sawdot st) true (underscores st)) s'
      else (st, s)
  end.

(** The digits of the exponent; the value stops growing at 10000. *)
Fixpoint readExponent (e : Z) (us : bool) (s : string) : Z * bool * string :=
  match s with
  | EmptyString => (e, us, s)
  | String b s' =>
      let c := code b in
      if c =? code "_" then readExponent e true s'
      else if isDigit c then
        readExponent (if e <? 10000 then e * 10 + c - code "0" else e) us s'
      else (e, us, s)
  end.

(** What [readFloat] returns when [ok]: the sign, the mantissa and the
    exponent of the base (10, or 2 for a hexadecimal text), the position
    [point] of the decimal point against the first digit, and the text
    left unread. *)
Record number : Type := mkNumber {
  neg : bool;
  hex : bool;
  mant : Z;
  exp : Z;
  point : Z;
  rest : string
}.

Definition readFloat (s : string) : option number :=
  match s with
  | EmptyString => None
  | String b s' =>
      (* optional sign *)
      let neg := code b =? code "-" in
      let s1 := if (code b =? code "+") || neg then s' else s in
      (* digits *)
      let hex := match s1 with
                 | String b0 (String b1 (String _ _)) =>
                     (code b0 =? code "0") && (lower (code b1) =? code "x")
                 | _ => false
                 end in
      let base := if hex then 16 else 10 in
      let expChar := if hex then code "p" else code "e" in
      let s2 := if hex then drop 2 s1 else s1 in
      let '(st, s3) := readDigits base (mkDigits 0 0 0 false false false) s2 in
      if negb (sawdigits st) then None
      else
        let dp := if sawdot st then dp st else nd st in
        let dp := if hex then dp * 4 else dp in
        let ndMant := if hex then nd st * 4 else nd st in
        (* optional exponent moves the decimal point *)
        let after :=
          match s3 with
          | String c s4 =>
              if lower (code c) =? expChar then
                match s4 with
                | EmptyString => None
                | String d s5 =>
                    let esign := if code d =? code "-" then -1 else 1 in
                    let s6 := if (code d =? code "+") || (code d =? code "-")
                              then s5 else s4 in
                    match s6 with
                    | EmptyString => None
                    | String d0 _ =>
                        if negb (isDigit (code d0)) then None
                        else
                          let '(e, us, s7) := readExponent 0 (underscores st) s6 in
                          Some (dp + e * esign, us, s7)
                    end
                end
              else if hex then None
              else Some (dp, underscores st, s3)
          | EmptyString => if hex then None else Some (dp, underscores st, s3)
          end in
        match after with
        | None => None
        | Some (dp, us, s8) =>
            let exp := if mantissa st =? 0 then 0 else dp - ndMant in
            if us && negb (underscoreOK (take (len s - len s8) s)) then None
            else Some (mkNumber neg hex (mantissa st) exp dp s8)
        end
  end.

(** [atof64]: the value, what is left unread, and the error.  A decimal
    text is rounded to the nearest float; one whose decimal point lies
    beyond 310 digits overflows and one below -330 is zero, as in
    [decimal.floatBits].

    Where the source reads the text a second time ([decimal.set]) it keeps
    800 digits, and for a text with more digits than that before the
    decimal point it counts the point from the 800th digit, so that its
    result is not the float nearest to the number written.  The embedding
    rounds the number written and does not follow the source on such a
    text.  The properties below either hold for whatever float [ParseFloat]
    returns or evaluate it on texts of a few bytes. *)
Definition atof64 (s : string) : float64.t * string * option error :=
  match special s with
  | Some (val, n) => (val, drop n s, None)
  | None =>
      match readFloat s with
      | None => (float64.zero, s, Some ErrSyntax)
      | Some x =>
          let f :=
            match mant x with
            | Zpos m =>
                if hex x then float64.ofBinary (neg x) m (exp x)
                else if 310 <? point x then float64.Inf (neg x)
                else if point x <? -330 then S754_zero (neg x)
                else float64.ofDecimal (neg x) m (exp x)
            | _ => S754_zero (neg x)
            end in
          (f, rest x,
           match f with S754_infinity _ => Some ErrRange | _ => None end)
      end
  end.

(** [ParseFloat(s, 64)]: text left unread is a syntax error, with value 0. *)
Definition ParseFloat (s : string) : float64.t * option error :=
  let '(f, unread, err) := atof64 s in
  match unread, err with
  | EmptyString, _ | _, Some ErrSyntax => (f, err)
  | _, _ => (float64.zero, Some ErrSyntax)
  end.

End strconv.

(** ** Package [math] *)

Module math.

(** [Mod(x, y)]: the floating-point remainder of [x / y].  Its magnitude is
    below that of [y] and its sign is the sign of [x]; the remainder of two
    floats is a float, so the final rounding is exact. *)
Definition Mod (x y : float64.t) : float64.t :=
  match x, y with
  | S754_nan, _ | _, S754_nan => float64.NaN
  | _, S754_zero _ => float64.NaN
  | S754_infinity _, _ => float64.NaN
  | _, S754_infinity _ => x
  | S754_zero _, _ => x
  | S754_finite sx mx ex, S754_finite _ my ey =>
      let e := Z.min ex ey in
      let r := Z.rem (Zpos mx * 2 ^ (ex - e)) (Zpos my * 2 ^ (ey - e)) in
      match r with
      | Zpos p => float64.ofBinary sx p e
      | _ => S754_zero sx
      end
  end.

(** [Ceil(x)]: the least integer value not below [x]; zeros, infinities and
    NaN are returned as they are, and a negative [x] above -1 gives -0. *)
Definition Ceil (x : float64.t) : float64.t :=
  match x with
  | S754_finite s m (Zneg p) =>
      let n := if s then - (Zpos m / 2 ^ Zpos p)
               else - ((- Zpos m) / 2 ^ Zpos p) in
      match n with
      | Z0 => S754_zero s
      | Zpos q => float64.ofBinary false q 0
      | Zneg q => float64.ofBinary true q 0
      end
  | _ => x
  end.

End math.

(** ** Conversion of a [float64] to [int]

    The fraction is discarded.  Where the integer part does not fit an [int],
    or there is none (infinities, NaN), the language leaves the result to the
    implementation: [unrepresentable] is that choice. *)

Section Conversion.

Variable unrepresentable : float64.t -> Z.

Definition int_of_float64 (x : float64.t) : Z :=
  match float64.trunc x with
  | Some z => if (Int.min <=? z) && (z <=? Int.max) then z
              else Int.wrap (unrepresentable x)
  | None => Int.wrap (unrepresentable x)
  end.

End Conversion.

(** On amd64 the conversion instruction answers every such input with the
    "integer indefinite" value, the least [int]. *)
Definition amd64 (_ : float64.t) : Z := Int.min.

(** * The program *)

(** [Item] represents a single item in a receipt. *)
Record Item : Type := mkItem {
  Description : string;
  Price : string
}.

(** [Receipt] holds the details of a purchase receipt. *)
Record Receipt : Type := mkReceipt {
  StoreName : string;
  DateOfPurchase : string;
  TimeOfPurchase : string;
  TotalAmount : string;
  PurchasedItems : list Item
}.

(** [isAlphanumeric] checks if a character is alphanumeric. *)
Definition isAlphanumeric (char : utf8.rune) : bool :=
  ((code "a" <=? char) && (char <=? code "z"))
  || ((code "A" <=? char) && (char <=? code "Z"))
  || ((code "0" <=? char) && (char <=? code "9")).

Section Points.

Variable unrepresentable : float64.t -> Z.

(** The statements of [computePoints], one definition per rule; each takes
    the receipt and the value of [points] before it and gives the value
    after it. *)

(** [for _, char := range receipt.StoreName { if isAlphanumeric(char) { points++ } }] *)
Definition retailerRule (receipt : Receipt) (points : Z) : Z :=
  fold_left
    (fun points '(_, char) => if isAlphanumeric char then Int.add points 1 else points)
    (utf8.range (StoreName receipt)) points.

(** [if strings.HasSuffix(receipt.TotalAmount, ".00") { points += 50 }] *)
Definition roundDollarRule (receipt : Receipt) (points : Z) : Z :=
  if strings.HasSuffix (TotalAmount receipt) ".00" then Int.add points 50 else points.

(** [totalValue, _ := strconv.ParseFloat(receipt.TotalAmount, 64)]
    [if math.Mod(totalValue, 0.25) == 0 { points += 25 }] *)
Definition quarterRule (receipt : Receipt) (points : Z) : Z :=
  let '(totalValue, _) := strconv.ParseFloat (TotalAmount receipt) in
  if float64.eqb (math.Mod totalValue float64.c0_25) float64.zero
  then Int.add points 25 else points.

(** [points += (len(receipt.PurchasedItems) / 2) * 5] *)
Definition pairRule (receipt : Receipt) (points : Z) : Z :=
  Int.add points
    (Int.mul (Int.div (Z.of_nat (List.length (PurchasedItems receipt))) 2) 5).

(** The body of the loop over the items. *)
Definition descriptionStep (points : Z) (item : Item) : Z :=
  if Int.rem (Z.of_nat (len (strings.TrimSpace (Description item)))) 3 =? 0 then
    let '(price, _) := strconv.ParseFloat (Price item) in
    Int.add points
      (int_of_float64 unrepresentable (math.Ceil (float64.mul price float64.c0_2)))
  else points.

(** [for _, item := range receipt.PurchasedItems { ... }] *)
Definition descriptionRule (receipt : Receipt) (points : Z) : Z :=
  fold_left descriptionStep (PurchasedItems receipt) points.

(** [dateParts := strings.Split(receipt.DateOfPurchase, "-")]
    [day, _ := strconv.Atoi(dateParts[2])]
    [if day%2 != 0 { points += 6 }] *)
Definition oddDayRule (receipt : Receipt) (points : Z) : outcome Z :=
  let dateParts := strings.Split (DateOfPurchase receipt) "-" in
  d ← index dateParts 2;
  let '(day, _) := strconv.Atoi d in
  mret (if negb (Int.rem day 2 =? 0) then Int.add points 6 else points).

(** [timeParts := strings.Split(receipt.TimeOfPurchase, ":")]
    [hour, _ := strconv.Atoi(timeParts[0])]
    [if hour >= 14 && hour < 16 { points += 10 }] *)
Definition afternoonRule (receipt : Receipt) (points : Z) : outcome Z :=
  let timeParts := strings.Split (TimeOfPurchase receipt) ":" in
  h ← index timeParts 0;
  let '(hour, _) := strconv.Atoi h in
  mret (if (14 <=? hour) && (hour <? 16) then Int.add points 10 else points).

(** [computePoints] calculates the points earned based on the receipt
    details. *)
Definition computePoints (receipt : Receipt) : outcome Z :=
  let points := 0 in
  let points := retailerRule receipt points in
  let points := roundDollarRule receipt points in
  let points := quarterRule receipt points in
  let points := pairRule receipt points in
  let points := descriptionRule receipt points in
  points ← oddDayRule receipt points;
  points ← afternoonRule receipt points;
  mret points.

End Points.

(** ** The handlers *)

(** A request as the handlers read it: the method, the path of the URL, and
    what [json.NewDecoder(r.Body).Decode(&receipt)] makes of the body, [None]
    when it reports an error.  A field absent from the body is left at its
    zero value, the empty string or the empty slice. *)
Record Request : Type := mkRequest {
  Method : string;
  Path : string;
  Body : option Receipt
}.

(** What a handler writes: an [http.Error] with its status code, or one of
    the two JSON bodies. *)
Inductive Response : Type :=
| Error (msg : string) (status : Z)
| ReceiptResponse (ReceiptID : string)
| PointsResponse (EarnedPoints : Z).

Definition StatusBadRequest : Z := 400.
Definition StatusNotFound : Z := 404.
Definition StatusMethodNotAllowed : Z := 405.

(** The state shared by the handlers: the map [receiptStorage], and how many
    identifiers [uuid.New] has handed out. *)
Record Server : Type := mkServer {
  receiptStorage : gmap string Receipt;
  generated : nat
}.

(** The required fields of a receipt, as [processReceipt] checks them. *)
Definition valid (receipt : Receipt) : bool :=
  negb (String.eqb (StoreName receipt) ""
        || String.eqb (DateOfPurchase receipt) ""
        || String.eqb (TimeOfPurchase receipt) ""
        || String.eqb (TotalAmount receipt) ""
        || (List.length (PurchasedItems receipt) =? 0)%nat).

(** The pattern [^\S+$]: at least one byte, none of them white space of the
    class [\s], which is tab, line feed, form feed, carriage return, space. *)
Fixpoint noSpace (s : string) : bool :=
  match s with
  | EmptyString => true
  | String b s' =>
      let c := code b in
      negb ((c =? 0x09) || (c =? 0x0A) || (c =? 0x0C) || (c =? 0x0D) || (c =? 0x20))
      && noSpace s'
  end.

Definition matchesID (s : string) : bool :=
  negb (String.eqb s "") && noSpace s.

Section Handlers.

Variable unrepresentable : float64.t -> Z.

(** [uuid.New().String()]: the text of the [n]-th identifier generated. *)
Variable uuid : nat -> string.

(** [processReceipt] handles the processing and storage of receipts. *)
Definition processReceipt (srv : Server) (r : Request) : Server * Response :=
  if negb (String.eqb (Method r) "POST") then
    (srv, Error "Method not allowed" StatusMethodNotAllowed)
  else
    match Body r with
    | None => (srv, Error "Invalid receipt format. Please verify input." StatusBadRequest)
    | Some receipt =>
        if negb (valid receipt) then
          (srv, Error "Invalid receipt format. Please verify input." StatusBadRequest)
        else
          let receiptID := uuid (generated srv) in
          (mkServer (<[receiptID := receipt]> (receiptStorage srv)) (S (generated srv)),
           ReceiptResponse receiptID)
    end.

(** [getPoints] retrieves the calculated points for a given receipt ID. *)
Definition getPoints (srv : Server) (r : Request) : outcome Response :=
  if negb (String.eqb (Method r) "GET") then
    mret (Error "Method not allowed" StatusMethodNotAllowed)
  else
    let receiptID := strings.TrimPrefix (Path r) "/receipts/" in
    let receiptID := strings.TrimSuffix receiptID "/points" in
    if negb (matchesID receiptID) then
      mret (Error "Invalid receipt ID format" StatusBadRequest)
    else
      match receiptStorage srv !! receiptID with
      | None => mret (Error "Receipt not found" StatusNotFound)
      | Some receipt =>
          points ← computePoints unrepresentable receipt;
          mret (PointsResponse points)
      end.

End Handlers.

(** * The rules, as sums

    The second reading of [computePoints]: what each rule contributes to the
    score of a receipt, as a number, and the sum of the contributions.  The
    properties below compare the statements of the program with it. *)

(** The ASCII letters and digits among the bytes of a string. *)
Definition alnum (b : byte) : bool := isAlphanumeric (code b).

Fixpoint alnumCount (s : string) : Z :=
  match s with
  | EmptyString => 0
  | String b s' => (if alnum b then 1 else 0) + alnumCount s'
  end.

Definition sumZ (l : list Z) : Z := fold_right Z.add 0 l.

Section Contributions.

Variable unrepresentable : float64.t -> Z.

Definition retailerPoints (receipt : Receipt) : Z :=
  alnumCount (StoreName receipt).

Definition roundDollarPoints (receipt : Receipt) : Z :=
  if strings.HasSuffix (TotalAmount receipt) ".00" then 50 else 0.

(** The total as [strconv.ParseFloat] returns it, the error dropped. *)
Definition totalValue (receipt : Receipt) : float64.t :=
  fst (strconv.ParseFloat (TotalAmount receipt)).

Definition quarterPoints (receipt : Receipt) : Z :=
  if float64.eqb (math.Mod (totalValue receipt) float64.c0_25) float64.zero
  then 25 else 0.

Definition pairPoints (receipt : Receipt) : Z :=
  5 * (Z.of_nat (List.length (PurchasedItems receipt)) / 2).

(** [int(math.Ceil(price * 0.2))] for the price of an item. *)
Definition priceShare (item : Item) : Z :=
  int_of_float64 unrepresentable
    (math.Ceil (float64.mul (fst (strconv.ParseFloat (Price item))) float64.c0_2)).

Definition trimmedLength (item : Item) : nat :=
  len (strings.TrimSpace (Description item)).

Definition itemPoints (item : Item) : Z :=
  if (trimmedLength item mod 3 =? 0)%nat then priceShare item else 0.

Definition descriptionPoints (receipt : Receipt) : Z :=
  sumZ (map itemPoints (PurchasedItems receipt)).

(** The day and the hour as [strconv.Atoi] returns them, the error dropped;
    0 where the text has no such part. *)
Definition day (receipt : Receipt) : Z :=
  match nth_error (strings.Split (DateOfPurchase receipt) "-") 2 with
  | Some d => fst (strconv.Atoi d)
  | None => 0
  end.

Definition hour (receipt : Receipt) : Z :=
  match nth_error (strings.Split (TimeOfPurchase receipt) ":") 0 with
  | Some h => fst (strconv.Atoi h)
  | None => 0
  end.

Definition oddDayPoints (receipt : Receipt) : Z :=
  if Z.odd (day receipt) then 6 else 0.

Definition afternoonPoints (receipt : Receipt) : Z :=
  if (14 <=? hour receipt) && (hour receipt <? 16) then 10 else 0.


End Contributions.

(** A byte string all of whose first [n] bytes lie outside ASCII. *)
Fixpoint highPrefix (n : nat) (s : string) : bool :=
  match n, s with
  | O, _ => true
  | S n', String b s' => (0x80 <=? code b) && highPrefix n' s'
  | S _, EmptyString => false
  end.

(** The ASCII letters and digits among the runes of a [range] loop. *)
Fixpoint runeCount (l : list (nat * utf8.rune)) : Z :=
  match l with
  | [] => 0
  | (_, r) :: l' => (if isAlphanumeric r then 1 else 0) + runeCount l'
  end.

(** * Predicates on floats *)

(** The least exponent of a [float64], -1074. *)
Definition emin : Z := SpecFloat.emin float64.prec float64.emax.

(** A finite float above [emin] or an infinity: what rounding a positive
    number gives. *)
Definition nonzero (x : float64.t) : Prop :=
  match x with
  | S754_finite _ _ e => emin <= e
  | S754_infinity _ => True
  | _ => False
  end.

(** A float whose exponent, when it is finite, is not below [emin]. *)
Definition wellFormed (x : float64.t) : Prop :=
  match x with
  | S754_finite _ _ e => emin <= e
  | _ => True
  end.

(** The float [x] is an integer multiple of 0.25.  Scaled by [2 ^ 1074] a
    finite float [m * 2 ^ e] is the integer [m * 2 ^ (e + 1074)], and 0.25
    is [2 ^ 1072]. *)
Definition quarterMultiple (x : float64.t) : Prop :=
  match x with
  | S754_zero _ => True
  | S754_finite _ m e => (2 ^ 1072 | Zpos m * 2 ^ (e + 1074))
  | _ => False
  end.

(** A float whose mantissa, when it is finite, has at most 53 bits and whose
    exponent is not below [emin]. *)
Definition bounded (x : float64.t) : Prop :=
  match x with
  | S754_finite _ m e => Zpos (digits2_pos m) <= float64.prec /\ emin <= e
  | _ => True
  end.

(** [z] is the least integer not below the finite float [x]: for a float
    [v * 2 ^ e] with [e] negative, [z - 1 < v / 2 ^ (- e) <= z]. *)
Definition isCeiling (z : Z) (x : float64.t) : Prop :=
  match x with
  | S754_zero _ => z = 0
  | S754_finite s m e =>
      let v := if s then - Zpos m else Zpos m in
      match e with
      | Zneg k => (z - 1) * 2 ^ Zpos k < v <= z * 2 ^ Zpos k
      | _ => z = v * 2 ^ e
      end
  | _ => False
  end.

(** * Receipts used as examples *)

(** The receipt of the README. *)
Definition dew : Item := mkItem "Mountain Dew 12PK" "6.49".

Definition readme : Receipt :=
  mkReceipt "Target" "2022-01-01" "13:01" "35.35" [dew].

(** The same receipt with a date that has no dash. *)
Definition undated : Receipt :=
  mkReceipt "Target" "20220101" "13:01" "35.35" [dew].


(** The receipt [receipt] with the total [total], and with the items [items]. *)
Definition withTotal (receipt : Receipt) (total : string) : Receipt :=
  mkReceipt (StoreName receipt) (DateOfPurchase receipt) (TimeOfPurchase receipt)
            total (PurchasedItems receipt).

Definition withItems (receipt : Receipt) (items : list Item) : Receipt :=
  mkReceipt (StoreName receipt) (DateOfPurchase receipt) (TimeOfPurchase receipt)
            (TotalAmount receipt) items.

(** The invariant of a stored receipt: every required field is present. *)
Definition complete (receipt : Receipt) : Prop :=
  StoreName receipt <> "" /\ DateOfPurchase receipt <> ""
  /\ TimeOfPurchase receipt <> "" /\ TotalAmount receipt <> ""
  /\ PurchasedItems receipt <> [].

(** An identifier as [uuid.New] prints it. *)
Definition someID : string := "7fb1377b-b223-49d9-a31a-5a02701dd310".

(** * The server over time *)

(** The server before the first request: [receiptStorage] is the empty map
    and no identifier has been generated. *)
Definition initial : Server := mkServer ∅ 0.

(** The identifier [getPoints] reads from the path of the URL. *)
Definition receiptID (path : string) : string :=
  strings.TrimSuffix (strings.TrimPrefix path "/receipts/") "/points".

Section History.

Variable uuid : nat -> string.

(** The server after [processReceipt] has handled the requests one after the
    other; [getPoints] leaves the server as it is. *)
Definition serve (srv : Server) (requests : list Request) : Server :=
  fold_left (fun srv r => fst (processReceipt uuid srv r)) requests srv.

(** What holds of the map at every moment: each receipt in it is complete
    and is filed under an identifier generated before. *)
Definition sound (srv : Server) : Prop :=
  forall id receipt,
    receiptStorage srv !! id = Some receipt ->
    complete receipt /\ exists i, (i < generated srv)%nat /\ id = uuid i.

(** The requests that [processReceipt] accepts. *)
Definition accepted (r : Request) : bool :=
  String.eqb (Method r) "POST"
  && match Body r with
     | Some receipt => valid receipt
     | None => false
     end.

End History.

(** An identifier source that never repeats itself: the [n]-th identifier
    is [n + 1] times the byte "0". *)
Fixpoint tally (n : nat) : string :=
  match n with
  | O => "0"
  | S n' => String "0" (tally n')
  end.

(** * Texts of dates and times *)

(** The string has no byte [c]. *)
Fixpoint lacks (c : byte) (s : string) : bool :=
  match s with
  | EmptyString => true
  | String b s' => negb (code b =? code c) && lacks c s'
  end.

Arguments lacks c%_char s%_string.

(** The string is made of decimal digits. *)
Fixpoint allDigits (s : string) : bool :=
  match s with
  | EmptyString => true
  | String b s' => strconv.isDigit (code b) && allDigits s'
  end.

(** The number that the digits [s] denote when written after the number [n]. *)
Fixpoint decimal (n : Z) (s : string) : Z :=
  match s with
  | EmptyString => n
  | String b s' => decimal (n * 10 + (code b - code "0")) s'
  end.

(** * Texts of descriptions *)

(** The string is made of ASCII white space. *)
Fixpoint blank (s : string) : bool :=
  match s with
  | EmptyString => true
  | String b s' => strings.asciiSpace (code b) && blank s'
  end.

(** An ASCII byte that is not white space. *)
Definition inked (c : Z) : bool :=
  (c <? utf8.RuneSelf) && negb (strings.asciiSpace c).

(** The string is empty, or begins and ends with ASCII bytes that are not
    white space; what lies between them is free. *)
Definition trimmed (s : string) : bool :=
  match s with
  | EmptyString => true
  | _ => inked (at_ s 0) && inked (at_ s (Z.of_nat (len s) - 1))
  end.

(** White space outside ASCII, in UTF-8: the no-break space U+00A0 and the
    ideographic space U+3000; and a letter outside ASCII, U+00E9. *)
Definition noBreakSpace : string := String "194" (String "160" "").
Definition ideographicSpace : string :=
  String "227" (String "128" (String "128" "")).
Definition eAcute : string := String "195" (String "169" "").

(** * Properties *)

(** ** Arithmetic of [int] *)

Lemma wrap_in_range (z : Z) : Int.in_range (Int.wrap z).
Proof.
  unfold Int.in_range, Int.wrap, Int.min, Int.max.
  pose proof (Z.mod_pos_bound (z + 2 ^ 63) (2 ^ 64)). lia.
Qed.

Lemma wrap_small (z : Z) : Int.in_range z -> Int.wrap z = z.
Proof.
  unfold Int.in_range, Int.wrap, Int.min, Int.max. intros H.
  rewrite Z.mod_small; lia.
Qed.

Lemma wrap_add_l (a b : Z) : Int.wrap (Int.wrap a + b) = Int.wrap (a + b).
Proof.
  unfold Int.wrap.
  replace ((a + 2 ^ 63) mod 2 ^ 64 - 2 ^ 63 + b + 2 ^ 63)
    with ((a + 2 ^ 63) mod 2 ^ 64 + b) by lia.
  rewrite Zplus_mod_idemp_l. do 2 f_equal. lia.
Qed.

Lemma wrap_add_r (a b : Z) : Int.wrap (a + Int.wrap b) = Int.wrap (a + b).
Proof. rewrite (Z.add_comm a), wrap_add_l. f_equal. lia. Qed.

Lemma add_in_range (a b : Z) : Int.in_range (Int.add a b).
Proof. apply wrap_in_range. Qed.

(** [x % 2 != 0] holds of the odd integers, negative ones included. *)
Lemma rem_2_odd (z : Z) : negb (Int.rem z 2 =? 0) = Z.odd z.
Proof.
  unfold Int.rem.
  destruct (Z.odd z) eqn:Ho.
  - apply negb_true_iff, Z.eqb_neq. intros H.
    apply Z.rem_divide in H; [|lia].
    destruct H as [k ->]. rewrite Z.mul_comm, Z.odd_mul in Ho. discriminate.
  - apply negb_false_iff, Z.eqb_eq.
    apply Z.rem_divide; [lia|].
    rewrite <- Z.negb_even in Ho. apply negb_false_iff, Z.even_spec in Ho.
    destruct Ho as [k ->]. exists k. lia.
Qed.

(** ** Decoding UTF-8 finds the ASCII letters and digits where they are *)

Lemma lor_lower (a b : Z) : 0 <= b -> a <= Z.lor a b.
Proof.
  intros Hb. pose proof (Z.sub_lor_l_same_l b a) as H.
  assert (0 <= Z.land b (Z.lnot a)) by (apply Z.land_nonneg; now left).
  lia.
Qed.

Lemma code_range (b : byte) : 0 <= code b < 256.
Proof.
  unfold code. pose proof (N_ascii_bounded b). lia.
Qed.

Lemma isAlphanumeric_ascii (c : Z) : isAlphanumeric c = true -> c < 0x80.
Proof.
  unfold isAlphanumeric.
  change (code "z") with 122; change (code "Z") with 90; change (code "9") with 57.
  rewrite !orb_true_iff, !andb_true_iff, !Z.leb_le. lia.
Qed.

Lemma not_alnum_high (c : Z) : 0x80 <= c -> isAlphanumeric c = false.
Proof.
  intros H. destruct (isAlphanumeric c) eqn:E; [|reflexivity].
  apply isAlphanumeric_ascii in E. lia.
Qed.

Lemma land_mask (c : Z) (n : Z) : 0 <= n -> Z.land c (2 ^ n - 1) = c mod 2 ^ n.
Proof.
  intros. replace (2 ^ n - 1) with (Z.ones n) by (rewrite Z.ones_equiv; lia).
  now apply Z.land_ones.
Qed.


Lemma lor_lower_r (a b : Z) : 0 <= a -> b <= Z.lor a b.
Proof. rewrite Z.lor_comm. apply lor_lower. Qed.

Lemma first_cases (c : Z) :
  0 <= c < 256 ->
  (c < 0x80 /\ utf8.first c = utf8.as_)
  \/ (0x80 <= c /\ utf8.first c = utf8.xx)
  \/ (0xC2 <= c < 0xE0 /\ utf8.first c = utf8.s1)
  \/ (c = 0xE0 /\ utf8.first c = utf8.s2)
  \/ (0xE1 <= c < 0xF0 /\ utf8.first c = utf8.s3)
  \/ (c = 0xED /\ utf8.first c = utf8.s4)
  \/ (c = 0xF0 /\ utf8.first c = utf8.s5)
  \/ (0xF1 <= c < 0xF4 /\ utf8.first c = utf8.s6)
  \/ (c = 0xF4 /\ utf8.first c = utf8.s7).
Proof.
  intros H. unfold utf8.first.
  repeat match goal with
         | |- context [?a <? ?b] => destruct (Z.ltb_spec a b)
         | |- context [?a =? ?b] => destruct (Z.eqb_spec a b)
         end; lia.
Qed.


Lemma shl_land_bound (c n k lo : Z) :
  0 <= n -> 0 <= k -> 128 <= (lo mod 2 ^ n) * 2 ^ k ->
  lo <= c -> c / 2 ^ n = lo / 2 ^ n ->
  128 <= Z.shiftl (Z.land c (2 ^ n - 1)) k.
Proof.
  intros Hn Hk Hlo Hc Hq.
  rewrite Z.shiftl_mul_pow2, land_mask by lia.
  assert (0 < 2 ^ n) by (apply Z.pow_pos_nonneg; lia).
  assert (0 < 2 ^ k) by (apply Z.pow_pos_nonneg; lia).
  assert (lo mod 2 ^ n <= c mod 2 ^ n).
  { rewrite (Z.mod_eq lo), (Z.mod_eq c), Hq by lia. lia. }
  nia.
Qed.

Lemma land_nonneg_r (a b : Z) : 0 <= b -> 0 <= Z.land a b.
Proof. intros. apply Z.land_nonneg. now right. Qed.

Lemma shl_land_nonneg (a b k : Z) : 0 <= b -> 0 <= Z.shiftl (Z.land a b) k.
Proof. intros. apply Z.shiftl_nonneg. now apply land_nonneg_r. Qed.

Ltac decode_case X SZ LO HI :=
  change (Z.land X 7) with SZ;
  change (utf8.acceptRanges (Z.shiftr X 4)) with (LO, HI);
  cbn [fst snd];
  try change (SZ <=? 2) with false; try change (SZ <=? 2) with true;
  try change (SZ <=? 3) with false; try change (SZ <=? 3) with true;
  cbv beta iota zeta.

Ltac accepted :=
  repeat match goal with
         | H : (_ <? _) || (_ <? _) = false |- _ =>
             apply orb_false_iff in H; destruct H as [?%Z.ltb_ge ?%Z.ltb_ge]
         end;
  unfold utf8.locb, utf8.hicb in *.

Ltac lead_at c n k lo :=
  apply (shl_land_bound c n k lo);
  [lia | lia | now apply Z.leb_le | lia | Z.div_mod_to_equations; lia].

Ltac lead_bound :=
  match goal with
  | |- 128 <= Z.shiftl (Z.land ?c _) ?k =>
      first [ lead_at c 5 k 194 | lead_at c 4 k 225 | lead_at c 3 k 241
            | lead_at c 6 k 160 | lead_at c 6 k 144 ]
  end.

Ltac rune_bound :=
  first [ lead_bound
        | eapply Z.le_trans;
          [| apply lor_lower; apply land_nonneg_r || apply shl_land_nonneg;
             unfold utf8.maskx; lia ];
          rune_bound
        | eapply Z.le_trans;
          [| apply lor_lower_r; repeat (apply Z.lor_nonneg; split);
             apply shl_land_nonneg; unfold utf8.mask3, utf8.mask4, utf8.maskx; lia ];
          rune_bound ].

Ltac decoded :=
  repeat case_match; intros [= <- <-];
  rewrite ?(not_alnum_high utf8.RuneError), ?(not_alnum_high (code _))
    by (unfold utf8.RuneError; lia);
  try (split; reflexivity);
  accepted; split;
  [ apply not_alnum_high; rune_bound
  | cbn [highPrefix Nat.sub]; repeat (apply andb_true_intro; split);
    try reflexivity; apply Z.leb_le; lia ].

Lemma DecodeRuneInString_alnum (b : byte) (s : string) (r : utf8.rune) (size : nat) :
  utf8.DecodeRuneInString (String b s) = (r, size) ->
  isAlphanumeric r = alnum b /\ highPrefix (size - 1) s = true.
Proof.
  unfold alnum. pose proof (code_range b) as Hb.
  unfold utf8.DecodeRuneInString.
  pose proof (first_cases (code b) Hb) as HC.
  repeat (destruct HC as [[H HC]|HC]); [..|destruct HC as [H HC]]; rewrite HC; clear HC.
  - cbn. intros [= <- <-]. now split.
  - cbn. intros [= <- <-]. split; [|reflexivity].
    rewrite !not_alnum_high by (unfold utf8.RuneError; lia). reflexivity.
  - change (utf8.as_ <=? utf8.s1) with false. cbv beta iota zeta.
    decode_case utf8.s1 2 utf8.locb utf8.hicb. decoded.
  - change (utf8.as_ <=? utf8.s2) with false. cbv beta iota zeta.
    decode_case utf8.s2 3 0xA0 utf8.hicb. decoded.
  - change (utf8.as_ <=? utf8.s3) with false. cbv beta iota zeta.
    decode_case utf8.s3 3 utf8.locb utf8.hicb. decoded.
  - change (utf8.as_ <=? utf8.s4) with false. cbv beta iota zeta.
    decode_case utf8.s4 3 utf8.locb 0x9F. decoded.
  - change (utf8.as_ <=? utf8.s5) with false. cbv beta iota zeta.
    decode_case utf8.s5 4 0x90 utf8.hicb. decoded.
  - change (utf8.as_ <=? utf8.s6) with false. cbv beta iota zeta.
    decode_case utf8.s6 4 utf8.locb utf8.hicb. decoded.
  - change (utf8.as_ <=? utf8.s7) with false. cbv beta iota zeta.
    decode_case utf8.s7 4 utf8.locb 0x8F. decoded.
Qed.

(** ** Each statement of [computePoints] adds its rule's contribution *)

Lemma rangeFrom_alnum (s : string) :
  forall i skip, highPrefix skip s = true ->
  runeCount (utf8.rangeFrom i skip s) = alnumCount s.
Proof.
  induction s as [|b s IH]; intros i skip Hs.
  - reflexivity.
  - destruct skip as [|k]; cbn [utf8.rangeFrom alnumCount].
    + destruct (utf8.DecodeRuneInString (String b s)) as [r size] eqn:E.
      apply DecodeRuneInString_alnum in E as [Ha Hh].
      cbn [runeCount]. now rewrite Ha, IH.
    + cbn [highPrefix] in Hs. apply andb_true_iff in Hs as [Hb Hs].
      apply Z.leb_le in Hb. unfold alnum. rewrite not_alnum_high by assumption.
      now rewrite IH.
Qed.

Lemma fold_count (l : list (nat * utf8.rune)) :
  forall p, Int.in_range p ->
  fold_left
    (fun points '(_, char) => if isAlphanumeric char then Int.add points 1 else points)
    l p = Int.wrap (p + runeCount l).
Proof.
  induction l as [|[i r] l IH]; intros p Hp; cbn [fold_left runeCount].
  - rewrite Z.add_0_r. now rewrite wrap_small.
  - destruct (isAlphanumeric r).
    + rewrite IH by apply add_in_range. unfold Int.add.
      rewrite wrap_add_l. f_equal. lia.
    + rewrite IH by assumption. f_equal.
Qed.

Section RuleLemmas.

Variable unrepresentable : float64.t -> Z.
Variable receipt : Receipt.
Variable points : Z.
Hypothesis points_in_range : Int.in_range points.

Lemma retailerRule_sum :
  retailerRule receipt points = Int.wrap (points + retailerPoints receipt).
Proof.
  unfold retailerRule, retailerPoints, utf8.range.
  rewrite fold_count by assumption.
  now rewrite rangeFrom_alnum.
Qed.

Lemma roundDollarRule_sum :
  roundDollarRule receipt points = Int.wrap (points + roundDollarPoints receipt).
Proof.
  unfold roundDollarRule, roundDollarPoints.
  destruct (strings.HasSuffix _ _); [reflexivity|].
  now rewrite Z.add_0_r, wrap_small.
Qed.

Lemma quarterRule_sum :
  quarterRule receipt points = Int.wrap (points + quarterPoints receipt).
Proof.
  unfold quarterRule, quarterPoints, totalValue.
  destruct (strconv.ParseFloat _) as [v e]. cbn [fst].
  destruct (float64.eqb _ _); [reflexivity|].
  now rewrite Z.add_0_r, wrap_small.
Qed.

Lemma wrap_mul_l (a b : Z) : Int.wrap (Int.wrap a * b) = Int.wrap (a * b).
Proof.
  unfold Int.wrap.
  replace (((a + 2 ^ 63) mod 2 ^ 64 - 2 ^ 63) * b + 2 ^ 63)
    with (((a + 2 ^ 63) mod 2 ^ 64) * b + (2 ^ 63 - 2 ^ 63 * b)) by lia.
  rewrite <- Zplus_mod_idemp_l, Zmult_mod_idemp_l, Zplus_mod_idemp_l.
  do 2 f_equal. lia.
Qed.

Lemma pairRule_sum :
  pairRule receipt points = Int.wrap (points + pairPoints receipt).
Proof.
  unfold pairRule, pairPoints, Int.add, Int.mul, Int.div.
  rewrite wrap_mul_l, wrap_add_r.
  rewrite Z.quot_div_nonneg by lia. f_equal. lia.
Qed.

Lemma rem_3_nat (n : nat) : (Int.rem (Z.of_nat n) 3 =? 0) = (n mod 3 =? 0)%nat.
Proof.
  unfold Int.rem. rewrite Z.rem_mod_nonneg by lia.
  change 3 with (Z.of_nat 3). rewrite <- Nat2Z.inj_mod.
  destruct (Nat.eqb_spec (n mod 3) 0) as [->|Hn]; [reflexivity|].
  apply Z.eqb_neq. lia.
Qed.

Lemma descriptionStep_sum (p : Z) (item : Item) :
  Int.in_range p ->
  descriptionStep unrepresentable p item
  = Int.wrap (p + itemPoints unrepresentable item).
Proof.
  intros Hp. unfold descriptionStep, itemPoints, priceShare, trimmedLength.
  rewrite rem_3_nat.
  destruct (_ =? _)%nat.
  - now destruct (strconv.ParseFloat (Price item)).
  - now rewrite Z.add_0_r, wrap_small.
Qed.

Lemma fold_description (items : list Item) :
  forall p, Int.in_range p ->
  fold_left (descriptionStep unrepresentable) items p
  = Int.wrap (p + sumZ (map (itemPoints unrepresentable) items)).
Proof.
  induction items as [|item items IH]; intros p Hp; cbn [fold_left map sumZ fold_right].
  - now rewrite Z.add_0_r, wrap_small.
  - rewrite descriptionStep_sum by assumption.
    rewrite IH by apply wrap_in_range.
    fold (sumZ (map (itemPoints unrepresentable) items)).
    rewrite wrap_add_l. f_equal. lia.
Qed.

Lemma descriptionRule_sum :
  descriptionRule unrepresentable receipt points
  = Int.wrap (points + descriptionPoints unrepresentable receipt).
Proof. unfold descriptionRule, descriptionPoints. now apply fold_description. Qed.

Lemma oddDayRule_sum :
  (3 <= List.length (strings.Split (DateOfPurchase receipt) "-"))%nat ->
  oddDayRule receipt points = Return (Int.wrap (points + oddDayPoints receipt)).
Proof.
  intros Hlen. unfold oddDayRule, oddDayPoints, day, index.
  destruct (nth_error _ 2) as [d|] eqn:E.
  - cbn. destruct (strconv.Atoi d) as [n e]. cbn [fst].
    rewrite rem_2_odd. unfold mret, outcome_ret. f_equal.
    destruct (Z.odd n); [reflexivity|].
    now rewrite Z.add_0_r, wrap_small.
  - apply nth_error_None in E. lia.
Qed.

Lemma splitLoop_cons (n : nat) (s sep : string) :
  exists x l, strings.splitLoop n s sep = x :: l.
Proof.
  destruct n; cbn [strings.splitLoop]; [eauto|].
  destruct (_ <? _); eauto.
Qed.

Lemma afternoonRule_sum :
  afternoonRule receipt points = Return (Int.wrap (points + afternoonPoints receipt)).
Proof.
  unfold afternoonRule, afternoonPoints, hour, index.
  change (strings.Split (TimeOfPurchase receipt) ":")
    with (strings.splitLoop
            (Nat.min (strings.Count (TimeOfPurchase receipt) ":" + 1)
                     (len (TimeOfPurchase receipt) + 1) - 1)
            (TimeOfPurchase receipt) ":").
  destruct (splitLoop_cons
              (Nat.min (strings.Count (TimeOfPurchase receipt) ":" + 1)
                       (len (TimeOfPurchase receipt) + 1) - 1)
              (TimeOfPurchase receipt) ":") as (h & l & ->).
  cbn. destruct (strconv.Atoi h) as [n e]. cbn [fst].
  unfold mret, outcome_ret. f_equal.
  destruct (_ && _); [reflexivity|].
  now rewrite Z.add_0_r, wrap_small.
Qed.

End RuleLemmas.

Section Sum.

Variable unrepresentable : float64.t -> Z.

Lemma computePoints_split (receipt : Receipt) :
  computePoints unrepresentable receipt
  = (let points :=
       Int.wrap (retailerPoints receipt + roundDollarPoints receipt
                 + quarterPoints receipt + pairPoints receipt
                 + descriptionPoints unrepresentable receipt) in
     points ← oddDayRule receipt points;
     afternoonRule receipt points).
Proof.
  unfold computePoints.
  rewrite retailerRule_sum by (unfold Int.in_range, Int.min, Int.max; lia).
  rewrite roundDollarRule_sum, quarterRule_sum, pairRule_sum, descriptionRule_sum
    by apply wrap_in_range.
  cbn zeta. rewrite Z.add_0_l.
  repeat (rewrite <- ?Z.add_assoc, wrap_add_l). rewrite !Z.add_assoc.
  destruct (oddDayRule _ _); [|reflexivity].
  cbn. now destruct (afternoonRule _ _).
Qed.

End Sum.

(** ** Strings *)

Lemma app_cons (c : byte) (s t : string) :
  (String c s ++ t)%string = String c (s ++ t)%string.
Proof. reflexivity. Qed.

Lemma app_empty (t : string) : ("" ++ t)%string = t.
Proof. reflexivity. Qed.

Lemma take_drop (n : nat) (s : string) : (take n s ++ drop n s)%string = s.
Proof.
  revert s. induction n as [|n IH]; intros [|c s]; cbn [take drop]; try reflexivity.
  now rewrite app_cons, IH.
Qed.

Lemma len_app (s t : string) : len (s ++ t)%string = (len s + len t)%nat.
Proof.
  unfold len. induction s as [|c s IH]; [reflexivity|].
  rewrite app_cons. cbn [String.length]. now rewrite IH.
Qed.

Lemma drop_app (s t : string) : drop (len s) (s ++ t)%string = t.
Proof.
  induction s as [|c s IH]; [now destruct t|].
  rewrite app_cons. exact IH.
Qed.

Lemma take_app (s t : string) : take (len s) (s ++ t)%string = s.
Proof.
  induction s as [|c s IH]; [now destruct t|].
  rewrite app_cons. cbn [len String.length take]. f_equal. exact IH.
Qed.

Lemma len_drop (n : nat) (s : string) : len (drop n s) = (len s - n)%nat.
Proof.
  revert s. induction n as [|n IH]; intros [|c s]; cbn; try reflexivity.
  apply IH.
Qed.

Lemma HasSuffix_app (s suffix : string) :
  strings.HasSuffix s suffix = true <-> exists pre, s = (pre ++ suffix)%string.
Proof.
  unfold strings.HasSuffix. split.
  - intros [Hlen Heq]%andb_true_iff. apply String.eqb_eq in Heq.
    exists (take (len s - len suffix) s).
    rewrite <- Heq at 2. now rewrite take_drop.
  - intros [pre ->]. rewrite len_app. apply andb_true_iff. split.
    + apply Nat.leb_le. lia.
    + replace (len pre + len suffix - len suffix)%nat with (len pre) by lia.
      rewrite drop_app. apply String.eqb_refl.
Qed.

Lemma HasPrefix_app (s prefix : string) :
  strings.HasPrefix s prefix = true <-> exists post, s = (prefix ++ post)%string.
Proof.
  unfold strings.HasPrefix. split.
  - intros [Hlen Heq]%andb_true_iff. apply String.eqb_eq in Heq.
    exists (drop (len prefix) s).
    rewrite <- Heq at 1. now rewrite take_drop.
  - intros [post ->]. rewrite len_app. apply andb_true_iff. split.
    + apply Nat.leb_le. lia.
    + rewrite take_app. apply String.eqb_refl.
Qed.

Lemma TrimPrefix_app (prefix s : string) :
  strings.TrimPrefix (prefix ++ s)%string prefix = s.
Proof.
  unfold strings.TrimPrefix.
  replace (strings.HasPrefix (prefix ++ s) prefix) with true
    by (symmetry; apply HasPrefix_app; eauto).
  apply drop_app.
Qed.

Lemma TrimSuffix_app (s suffix : string) :
  strings.TrimSuffix (s ++ suffix)%string suffix = s.
Proof.
  unfold strings.TrimSuffix.
  replace (strings.HasSuffix (s ++ suffix) suffix) with true
    by (symmetry; apply HasSuffix_app; eauto).
  rewrite len_app.
  replace (len s + len suffix - len suffix)%nat with (len s) by lia.
  apply take_app.
Qed.

(** ** What [ParseFloat] returns with an error *)

Lemma atof64_error (s : string) (v : float64.t) (unread : string) (e : strconv.error) :
  strconv.atof64 s = (v, unread, Some e) ->
  match e with
  | strconv.ErrSyntax => v = float64.zero
  | strconv.ErrRange => exists neg, v = float64.Inf neg
  end.
Proof.
  unfold strconv.atof64.
  destruct (strconv.special s) as [[val n]|]; [discriminate|].
  destruct (strconv.readFloat s) as [x|]; [|now intros [= <- <- <-]].
  intros [= <- <- He]. 
  destruct (match strconv.mant x with Zpos _ => _ | _ => _ end);
    try discriminate.
  injection He as <-. now eexists.
Qed.

Lemma ParseFloat_error (s : string) (v : float64.t) (e : strconv.error) :
  strconv.ParseFloat s = (v, Some e) ->
  match e with
  | strconv.ErrSyntax => v = float64.zero
  | strconv.ErrRange => exists neg, v = float64.Inf neg
  end.
Proof.
  unfold strconv.ParseFloat.
  destruct (strconv.atof64 s) as [[f unread] err] eqn:E.
  destruct unread, err as [[]|]; intros [= <- <-]; try reflexivity;
    apply atof64_error in E; exact E.
Qed.

Lemma sumZ_permutation (l l' : list Z) : Permutation l l' -> sumZ l = sumZ l'.
Proof.
  induction 1 as [|x l l' _ IH|x y l|l l' l'' _ IH1 _ IH2];
    unfold sumZ in *; cbn [fold_right] in *; lia.
Qed.

(** ** Rounding to [float64] *)

Lemma digits2_bounds (m : positive) :
  2 ^ (Zpos (digits2_pos m) - 1) <= Zpos m < 2 ^ Zpos (digits2_pos m).
Proof.
  induction m as [m IH|m IH|]; cbn [digits2_pos].
  - rewrite Pos2Z.inj_succ, Z.pow_succ_r by lia.
    replace (Z.succ (Zpos (digits2_pos m)) - 1) with (Z.succ (Zpos (digits2_pos m) - 1)) by lia.
    rewrite Z.pow_succ_r by lia. lia.
  - rewrite Pos2Z.inj_succ, Z.pow_succ_r by lia.
    replace (Z.succ (Zpos (digits2_pos m)) - 1) with (Z.succ (Zpos (digits2_pos m) - 1)) by lia.
    rewrite Z.pow_succ_r by lia. lia.
  - cbn. lia.
Qed.

Lemma shr_1_m (mrs : shr_record) :
  0 <= shr_m mrs -> shr_m (shr_1 mrs) = shr_m mrs / 2.
Proof.
  destruct mrs as [[|[p|p|]|p] r s]; cbn [shr_m shr_1]; intros H;
    try lia; Z.div_mod_to_equations; lia.
Qed.

Lemma pow_xI (p : positive) : 2 ^ Zpos p~1 = 2 * 2 ^ Zpos p * 2 ^ Zpos p.
Proof.
  rewrite (Pos2Z.inj_xI p). replace (2 * Zpos p + 1) with (1 + Zpos p + Zpos p) by lia.
  rewrite !Z.pow_add_r by lia. reflexivity.
Qed.

Lemma pow_xO (p : positive) : 2 ^ Zpos p~0 = 2 ^ Zpos p * 2 ^ Zpos p.
Proof.
  rewrite (Pos2Z.inj_xO p). replace (2 * Zpos p) with (Zpos p + Zpos p) by lia.
  now rewrite Z.pow_add_r by lia.
Qed.

Lemma iter_shr_m (p : positive) :
  forall mrs, 0 <= shr_m mrs ->
  shr_m (SpecFloat.iter_pos shr_1 p mrs) = shr_m mrs / 2 ^ Zpos p.
Proof.
  induction p as [p IH|p IH|]; intros mrs H; cbn [SpecFloat.iter_pos].
  - assert (H1 : 0 <= shr_m (shr_1 mrs)) by (rewrite shr_1_m by lia; apply Z.div_pos; lia).
    assert (H2 : 0 <= shr_m (SpecFloat.iter_pos shr_1 p (shr_1 mrs)))
      by (rewrite IH by lia; apply Z.div_pos; [lia|apply Z.pow_pos_nonneg; lia]).
    rewrite IH, IH, shr_1_m by lia.
    rewrite !Z.div_div by (try apply Z.pow_pos_nonneg; lia).
    rewrite pow_xI. f_equal; ring.
  - assert (H2 : 0 <= shr_m (SpecFloat.iter_pos shr_1 p mrs))
      by (rewrite IH by lia; apply Z.div_pos; [lia|apply Z.pow_pos_nonneg; lia]).
    rewrite IH, IH by lia.
    rewrite !Z.div_div by (try apply Z.pow_pos_nonneg; lia).
    rewrite pow_xO. f_equal; ring.
  - rewrite shr_1_m by lia. reflexivity.
Qed.

Lemma shr_record_of_loc_m (m : Z) (l : location) : shr_m (shr_record_of_loc m l) = m.
Proof. now destruct l as [|[]]. Qed.

Lemma fexp_emin (e : Z) : emin <= fexp float64.prec float64.emax e.
Proof. unfold fexp, emin. lia. Qed.

(** The exponent [shr_fexp] returns is never below [emin]. *)
Lemma shr_fexp_exponent (m e : Z) (l : location) :
  emin <= snd (shr_fexp float64.prec float64.emax m e l).
Proof.
  unfold shr_fexp, shr.
  pose proof (fexp_emin (Zdigits2 m + e)) as Hf.
  destruct (fexp _ _ _ - e) eqn:En; cbn [snd]; lia.
Qed.

(** A positive mantissa above [emin] is not shifted away. *)
Lemma shr_fexp_positive (m : positive) (e : Z) (l : location) :
  emin <= e ->
  0 < shr_m (fst (shr_fexp float64.prec float64.emax (Zpos m) e l)).
Proof.
  intros He. unfold shr_fexp, shr.
  destruct (fexp _ _ _ - e) as [|p|p] eqn:En; cbn [fst];
    rewrite ?iter_shr_m, shr_record_of_loc_m by (rewrite shr_record_of_loc_m; lia);
    try lia.
  pose proof (digits2_bounds m) as [Hlo _].
  cbn [Zdigits2] in En.
  unfold fexp, emin, SpecFloat.emin, float64.prec, float64.emax in *.
  assert (Hp : Zpos p <= Zpos (digits2_pos m) - 1) by lia.
  apply Z.div_str_pos. split; [apply Z.pow_pos_nonneg; lia|].
  etransitivity; [|exact Hlo]. apply Z.pow_le_mono_r; lia.
Qed.

Lemma round_nearest_even_ge (m : Z) (l : location) : m <= round_nearest_even m l.
Proof. destruct l as [|[]]; cbn; try lia. destruct (Z.even m); lia. Qed.

Lemma binary_round_aux_nonzero (s : bool) (m : positive) (e : Z) (l : location) :
  emin <= e ->
  nonzero (binary_round_aux float64.prec float64.emax s (Zpos m) e l).
Proof.
  intros He. unfold binary_round_aux.
  pose proof (shr_fexp_positive m e l He) as H1.
  pose proof (shr_fexp_exponent (Zpos m) e l) as E1.
  destruct (shr_fexp _ _ (Zpos m) e l) as [mrs' e']. cbn [fst snd] in *.
  pose proof (round_nearest_even_ge (shr_m mrs') (loc_of_shr_record mrs')) as Hr.
  destruct (round_nearest_even _ _) as [|m'|m'] eqn:Em; try lia.
  pose proof (shr_fexp_positive m' e' loc_Exact E1) as H2.
  pose proof (shr_fexp_exponent (Zpos m') e' loc_Exact) as E2.
  destruct (shr_fexp _ _ (Zpos m') e' loc_Exact) as [mrs'' e'']. cbn [fst snd] in *.
  destruct (shr_m mrs''); try lia.
  now destruct (_ <=? _).
Qed.

Lemma ofBinary_nonzero (s : bool) (m : positive) (e : Z) :
  emin <= e -> nonzero (float64.ofBinary s m e).
Proof.
  intros He. unfold float64.ofBinary, binary_round, shl_align.
  pose proof (fexp_emin (Zpos (digits2_pos m) + e)) as Hf.
  destruct (fexp _ _ _ - e) eqn:En; apply binary_round_aux_nonzero; lia.
Qed.

Lemma binary_round_aux_wellFormed (s : bool) (m e : Z) (l : location) :
  wellFormed (binary_round_aux float64.prec float64.emax s m e l).
Proof.
  unfold binary_round_aux.
  destruct (shr_fexp _ _ m e l) as [mrs' e'].
  pose proof (shr_fexp_exponent
                (round_nearest_even (shr_m mrs') (loc_of_shr_record mrs')) e' loc_Exact) as E2.
  destruct (shr_fexp _ _ _ e' loc_Exact) as [mrs'' e'']. cbn [snd] in E2.
  destruct (shr_m mrs''); cbn; trivial.
  now destruct (_ <=? _).
Qed.

Lemma ofRatio_wellFormed (s : bool) (num den : positive) :
  wellFormed (float64.ofRatio s num den).
Proof.
  unfold float64.ofRatio.
  destruct (SFdiv_core_binary _ _ _ _ _ _) as [[q e] l].
  apply binary_round_aux_wellFormed.
Qed.

Lemma ofBinary_wellFormed (s : bool) (m : positive) (e : Z) :
  wellFormed (float64.ofBinary s m e).
Proof.
  unfold float64.ofBinary, binary_round.
  destruct (shl_align _ _ _) as [mz ez]. apply binary_round_aux_wellFormed.
Qed.

Lemma atof64_wellFormed (s : string) : wellFormed (fst (fst (strconv.atof64 s))).
Proof.
  unfold strconv.atof64.
  destruct (strconv.special s) as [[val n]|] eqn:Es.
  - cbn [fst]. unfold strconv.special in Es.
    repeat case_match; try discriminate; injection Es as <- _; exact I.
  - destruct (strconv.readFloat s) as [x|]; cbn [fst]; [|exact I].
    destruct (strconv.mant x); try exact I.
    repeat case_match; try exact I.
    + apply ofBinary_wellFormed.
    + unfold float64.ofDecimal. repeat case_match; apply ofRatio_wellFormed.
Qed.

Lemma ParseFloat_wellFormed (s : string) : wellFormed (fst (strconv.ParseFloat s)).
Proof.
  unfold strconv.ParseFloat.
  pose proof (atof64_wellFormed s) as H.
  destruct (strconv.atof64 s) as [[f unread] err]. cbn [fst] in H.
  repeat case_match; cbn [fst]; trivial; exact I.
Qed.

(** ** The quarter rule tests for a multiple of 0.25 *)

Lemma nonzero_eqb_zero (y : float64.t) : nonzero y -> float64.eqb y float64.zero = false.
Proof. destruct y as [s|s| |s m e]; cbn; try tauto; now destruct s. Qed.

Lemma Mod_quarter (x : float64.t) :
  wellFormed x ->
  float64.eqb (math.Mod x float64.c0_25) float64.zero = true <-> quarterMultiple x.
Proof.
  destruct x as [s|s| |s m e]; cbn [wellFormed quarterMultiple].
  - intros _. now destruct s.
  - intros _. now destruct s.
  - intros _. now cbn.
  - intros He. unfold emin, SpecFloat.emin, float64.prec, float64.emax in He.
    unfold float64.c0_25. cbn [math.Mod].
    set (e0 := Z.min e (-54)).
    set (a := Zpos m * 2 ^ (e - e0)).
    set (b := 4503599627370496 * 2 ^ (-54 - e0)).
    assert (Ha : 0 < a) by (apply Z.mul_pos_pos; [lia|apply Z.pow_pos_nonneg; lia]).
    assert (Hb : 0 < b) by (apply Z.mul_pos_pos; [lia|apply Z.pow_pos_nonneg; lia]).
    assert (Hs : Zpos m * 2 ^ (e + 1074) = a * 2 ^ (e0 + 1074)).
    { unfold a. rewrite <- Z.mul_assoc, <- Z.pow_add_r by lia. do 2 f_equal. lia. }
    assert (Hq : 2 ^ 1072 = b * 2 ^ (e0 + 1074)).
    { unfold b. change 4503599627370496 with (2 ^ 52).
      rewrite <- !Z.pow_add_r by lia. f_equal. lia. }
    assert (Hdiv : (2 ^ 1072 | Zpos m * 2 ^ (e + 1074)) <-> Z.rem a b = 0).
    { rewrite Hs, Hq, Z.mul_divide_cancel_r, Z.rem_mod_nonneg by (try apply Z.pow_nonzero; lia).
      symmetry. apply Z.mod_divide. lia. }
    pose proof (Z.rem_nonneg a b ltac:(lia) ltac:(lia)) as Hr.
    destruct (Z.rem a b) as [|p|p] eqn:Er; try lia.
    + split; [intros _; now apply Hdiv|intros _; now destruct s].
    + rewrite nonzero_eqb_zero by (apply ofBinary_nonzero;
          unfold emin, SpecFloat.emin, float64.prec, float64.emax, e0; lia).
      split; [discriminate|]. intros H%Hdiv. discriminate.
Qed.

Lemma quarterPoints_multiple (receipt : Receipt) :
  quarterPoints receipt = 25 <-> quarterMultiple (totalValue receipt).
Proof.
  rewrite <- Mod_quarter by apply ParseFloat_wellFormed.
  unfold quarterPoints. destruct (float64.eqb _ _); split; auto; discriminate.
Qed.

(** ** The share of a price is the ceiling of a float *)

Lemma Zdigits2_le (x k : Z) : 0 <= k -> 0 <= x < 2 ^ k -> Zdigits2 x <= k.
Proof.
  intros Hk [Hx Hlt]. destruct x as [|q|q]; cbn [Zdigits2]; try lia.
  pose proof (digits2_bounds q) as [Hlo _].
  assert (H : 2 ^ (Zpos (digits2_pos q) - 1) < 2 ^ k) by lia.
  apply Z.pow_lt_mono_r_iff in H; lia.
Qed.

Lemma Zdigits2_lt (x : Z) : 0 <= x -> x < 2 ^ Zdigits2 x.
Proof.
  intros Hx. destruct x as [|q|q]; cbn [Zdigits2]; try lia.
  apply digits2_bounds.
Qed.

Lemma shr_fexp_digits (m e : Z) (l : location) :
  0 <= m ->
  0 <= shr_m (fst (shr_fexp float64.prec float64.emax m e l))
  /\ Zdigits2 (shr_m (fst (shr_fexp float64.prec float64.emax m e l))) <= float64.prec.
Proof.
  intros Hm. unfold shr_fexp, shr.
  pose proof (Zdigits2_lt m Hm) as Hd.
  assert (Hd0 : 0 <= Zdigits2 m) by (destruct m; cbn; lia).
  destruct (fexp _ _ _ - e) as [|p|p] eqn:En; cbn [fst];
    rewrite ?iter_shr_m, shr_record_of_loc_m by (rewrite shr_record_of_loc_m; lia);
    unfold fexp, float64.prec in *.
  - split; lia.
  - assert (Hp : 0 < 2 ^ Zpos p) by (apply Z.pow_pos_nonneg; lia).
    split; [apply Z.div_pos; lia|].
    apply Zdigits2_le; [lia|]. split; [apply Z.div_pos; lia|].
    apply Z.div_lt_upper_bound; [lia|].
    rewrite <- Z.pow_add_r by lia.
    eapply Z.lt_le_trans; [exact Hd|]. apply Z.pow_le_mono_r; lia.
  - split; lia.
Qed.

Lemma binary_round_aux_bounded (s : bool) (m e : Z) (l : location) :
  0 <= m -> bounded (binary_round_aux float64.prec float64.emax s m e l).
Proof.
  intros Hm. unfold binary_round_aux.
  pose proof (shr_fexp_digits m e l Hm) as [H1 _].
  destruct (shr_fexp _ _ m e l) as [mrs' e']. cbn [fst] in H1.
  pose proof (round_nearest_even_ge (shr_m mrs') (loc_of_shr_record mrs')) as Hr.
  set (m' := round_nearest_even _ _) in *.
  pose proof (shr_fexp_digits m' e' loc_Exact ltac:(lia)) as [_ H2].
  pose proof (shr_fexp_exponent m' e' loc_Exact) as E2.
  destruct (shr_fexp _ _ m' e' loc_Exact) as [mrs'' e'']. cbn [fst snd] in *.
  destruct (shr_m mrs''); cbn; trivial.
  now destruct (_ <=? _).
Qed.

Lemma mul_bounded (x y : float64.t) : bounded (float64.mul x y).
Proof.
  destruct x as [sx|sx| |sx mx ex], y as [sy|sy| |sy my ey]; cbn; trivial.
  apply binary_round_aux_bounded. lia.
Qed.

Lemma iter_xO_digits (q k : positive) :
  digits2_pos (Pos.iter xO q k) = (digits2_pos q + k)%positive.
Proof.
  induction k as [|k IH] using Pos.peano_ind.
  - cbn. lia.
  - rewrite Pos.iter_succ. cbn [digits2_pos]. rewrite IH. lia.
Qed.

Lemma iter_xO_value (q k : positive) :
  Zpos (Pos.iter xO q k) = Zpos q * 2 ^ Zpos k.
Proof.
  induction k as [|k IH] using Pos.peano_ind.
  - cbn. lia.
  - rewrite Pos.iter_succ, Pos2Z.inj_xO, IH, Pos2Z.inj_succ, Z.pow_succ_r by lia. ring.
Qed.

(** A canonical mantissa is left as it is. *)
Lemma binary_round_aux_canonical (s : bool) (m : positive) (e : Z) :
  fexp float64.prec float64.emax (Zpos (digits2_pos m) + e) = e ->
  e <= float64.emax - float64.prec ->
  binary_round_aux float64.prec float64.emax s (Zpos m) e loc_Exact = S754_finite s m e.
Proof.
  intros Hc He. unfold binary_round_aux, shr_fexp. cbn [Zdigits2].
  rewrite Hc, Z.sub_diag. cbn [shr shr_record_of_loc shr_m loc_of_shr_record round_nearest_even].
  cbn [Zdigits2]. rewrite Hc, Z.sub_diag. cbn [shr shr_record_of_loc shr_m].
  apply Z.leb_le in He. now rewrite He.
Qed.

(** An integer below [2 ^ 53] is a float. *)
Lemma ofBinary_int (s : bool) (q : positive) :
  Zpos q < 2 ^ 53 ->
  float64.trunc (float64.ofBinary s q 0) = Some (if s then - Zpos q else Zpos q).
Proof.
  intros Hq. unfold float64.ofBinary, binary_round, shl_align.
  assert (Hd : Zpos (digits2_pos q) <= 53) by (apply (Zdigits2_le (Zpos q)); lia).
  rewrite Z.add_0_r.
  assert (Hf : fexp float64.prec float64.emax (Zpos (digits2_pos q))
               = Zpos (digits2_pos q) - 53)
    by (unfold fexp, SpecFloat.emin, float64.prec, float64.emax; lia).
  rewrite Hf, Z.sub_0_r.
  destruct (Zpos (digits2_pos q) - 53) as [|k|k] eqn:Ek; try lia.
  - rewrite binary_round_aux_canonical.
    + cbn [float64.trunc]. rewrite Z.pow_0_r, Z.mul_1_r. reflexivity.
    + rewrite Z.add_0_r, Hf. lia.
    + unfold float64.emax, float64.prec. lia.
  - rewrite binary_round_aux_canonical.
    + cbn [float64.trunc]. rewrite iter_xO_value, Z.div_mul; [reflexivity|].
      apply Z.pow_nonzero; lia.
    + rewrite iter_xO_digits, Pos2Z.inj_add.
      unfold fexp, SpecFloat.emin, float64.prec, float64.emax. lia.
    + unfold float64.emax, float64.prec. lia.
Qed.

Lemma isCeiling_unique (z z' : Z) (x : float64.t) :
  isCeiling z x -> isCeiling z' x -> z = z'.
Proof.
  destruct x as [s|s| |s m [|e|e]]; cbn [isCeiling]; try lia; try tauto.
  assert (0 < 2 ^ Zpos e) by (apply Z.pow_pos_nonneg; lia). nia.
Qed.

Lemma Ceil_ceiling (x : float64.t) (z : Z) :
  bounded x -> isCeiling z x -> float64.trunc (math.Ceil x) = Some z.
Proof.
  destruct x as [s|s| |s m [|e|e]]; cbn [bounded isCeiling math.Ceil float64.trunc];
    try tauto.
  - now intros _ ->.
  - intros _ ->. destruct s; f_equal; lia.
  - intros _ ->. destruct s; f_equal; lia.
  - intros [Hd _] Hz. unfold float64.prec in Hd.
    pose proof (digits2_bounds m) as [_ Hm].
    assert (Hm53 : Zpos m < 2 ^ 53).
    { eapply Z.lt_le_trans; [exact Hm|]. apply Z.pow_le_mono_r; lia. }
    assert (HP : 2 <= 2 ^ Zpos e).
    { change 2 with (2 ^ 1) at 1. apply Z.pow_le_mono_r; lia. }
    destruct s.
    + pose proof (Z.div_mod (Zpos m) (2 ^ Zpos e) ltac:(lia)) as Hdm.
      pose proof (Z.mod_pos_bound (Zpos m) (2 ^ Zpos e) ltac:(lia)) as Hmb.
      assert (Hzn : z = - (Zpos m / 2 ^ Zpos e)) by nia.
      rewrite <- Hzn. destruct z as [|q|q]; [reflexivity|nia|].
      rewrite ofBinary_int by nia. reflexivity.
    + pose proof (Z.div_mod (- Zpos m) (2 ^ Zpos e) ltac:(lia)) as Hdm.
      pose proof (Z.mod_pos_bound (- Zpos m) (2 ^ Zpos e) ltac:(lia)) as Hmb.
      assert (Hzn : z = - (- Zpos m / 2 ^ Zpos e)) by nia.
      rewrite <- Hzn. destruct z as [|q|q]; [nia| |nia].
      rewrite ofBinary_int by nia. reflexivity.
Qed.

Lemma int_of_float64_ceiling (unrepresentable : float64.t -> Z) (x : float64.t) (z : Z) :
  bounded x -> isCeiling z x -> Int.in_range z ->
  int_of_float64 unrepresentable (math.Ceil x) = z.
Proof.
  intros Hb Hz [Hlo Hhi]. unfold int_of_float64.
  rewrite (Ceil_ceiling x z Hb Hz).
  apply Z.leb_le in Hlo, Hhi. now rewrite Hlo, Hhi.
Qed.

(** The share of a price is the ceiling of the float product [price * 0.2],
    where the ceiling fits an [int]. *)
Lemma priceShare_ceiling (unrepresentable : float64.t -> Z) (item : Item) (z : Z) :
  isCeiling z (float64.mul (fst (strconv.ParseFloat (Price item))) float64.c0_2) ->
  Int.in_range z ->
  priceShare unrepresentable item = z.
Proof.
  intros Hz Hr. unfold priceShare.
  apply int_of_float64_ceiling; [apply mul_bounded|assumption|assumption].
Qed.

(** Where the ceiling does not fit an [int], the share is what the
    conversion of the implementation gives. *)
Lemma priceShare_unrepresentable (unrepresentable : float64.t -> Z) (item : Item) (z : Z) :
  let product := float64.mul (fst (strconv.ParseFloat (Price item))) float64.c0_2 in
  isCeiling z product ->
  ~ Int.in_range z ->
  priceShare unrepresentable item = Int.wrap (unrepresentable (math.Ceil product)).
Proof.
  intros product Hz Hr. unfold priceShare, int_of_float64. fold product.
  rewrite (Ceil_ceiling product z (mul_bounded _ _) Hz).
  destruct (Z.leb_spec Int.min z), (Z.leb_spec z Int.max); cbn [andb];
    try reflexivity.
  exfalso. apply Hr. now split.
Qed.

(** ** Trimming *)

Lemma asciiSpace_ascii (c : Z) : strings.asciiSpace c = true -> c < utf8.RuneSelf.
Proof.
  unfold strings.asciiSpace, utf8.RuneSelf.
  rewrite !orb_true_iff, !Z.eqb_eq. lia.
Qed.

Lemma scanLeft_blank (pre rest : string) :
  forall start, blank pre = true ->
  strings.scanLeft start (pre ++ rest)%string
  = strings.scanLeft (start + len pre) rest.
Proof.
  induction pre as [|b pre IH]; intros start Hpre.
  - rewrite app_empty. f_equal. cbn. lia.
  - cbn [blank] in Hpre. apply andb_true_iff in Hpre as [Hb Hpre].
    rewrite app_cons. cbn [strings.scanLeft].
    pose proof (asciiSpace_ascii _ Hb) as Hlt.
    replace (utf8.RuneSelf <=? code b) with false by (symmetry; apply Z.leb_gt; lia).
    rewrite Hb. cbn [negb]. rewrite IH by assumption. f_equal.
    unfold len. cbn [String.length]. lia.
Qed.

Lemma at_app_l (a b : string) (i : nat) :
  (i < len a)%nat -> at_ (a ++ b)%string (Z.of_nat i) = at_ a (Z.of_nat i).
Proof.
  intros Hi. unfold at_. rewrite Nat2Z.id.
  now rewrite <- (append_correct1 a b i Hi).
Qed.

Lemma at_app_r (a b : string) (j : nat) :
  at_ (a ++ b)%string (Z.of_nat (len a + j)) = at_ b (Z.of_nat j).
Proof.
  unfold at_. rewrite !Nat2Z.id. replace (len a + j)%nat with (j + String.length a)%nat
    by (unfold len; lia).
  now rewrite <- append_correct2.
Qed.

Lemma at_blank (post : string) :
  forall j, blank post = true -> (j < len post)%nat ->
  strings.asciiSpace (at_ post (Z.of_nat j)) = true.
Proof.
  induction post as [|b post IH]; intros j Hpost Hj; [cbn in Hj; lia|].
  cbn [blank] in Hpost. apply andb_true_iff in Hpost as [Hb Hpost].
  destruct j as [|j]; [exact Hb|].
  unfold at_. rewrite Nat2Z.id. cbn [String.get].
  specialize (IH j Hpost). unfold at_ in IH. rewrite Nat2Z.id in IH.
  apply IH. unfold len in *. cbn [String.length] in Hj. lia.
Qed.

Lemma scanRight_blank (a post : string) (start : nat) :
  blank post = true -> (start <= len a)%nat ->
  forall n, (n <= len post)%nat ->
  strings.scanRight (a ++ post)%string start (len a + n)
  = strings.scanRight (a ++ post)%string start (len a).
Proof.
  intros Hpost Hstart. induction n as [|n IH]; intros Hn.
  - f_equal. lia.
  - replace (len a + S n)%nat with (S (len a + n)) by lia.
    cbn [strings.scanRight].
    replace (S (len a + n) <=? start)%nat with false
      by (symmetry; apply Nat.leb_gt; lia).
    rewrite at_app_r.
    pose proof (at_blank post n Hpost ltac:(lia)) as Hs.
    pose proof (asciiSpace_ascii _ Hs) as Hlt.
    replace (utf8.RuneSelf <=? at_ post (Z.of_nat n)) with false
      by (symmetry; apply Z.leb_gt; lia).
    rewrite Hs. cbn [negb]. apply IH. lia.
Qed.

Lemma append_empty_r (s : string) : (s ++ "")%string = s.
Proof. induction s as [|b s IH]; [reflexivity|]. now rewrite app_cons, IH. Qed.

Lemma append_assoc (a b c : string) : (a ++ b ++ c)%string = ((a ++ b) ++ c)%string.
Proof. induction a as [|x a IH]; [reflexivity|]. now rewrite !app_cons, IH. Qed.

Lemma blank_app (a b : string) :
  blank a = true -> blank b = true -> blank (a ++ b)%string = true.
Proof.
  intros Ha Hb. induction a as [|x a IH]; [exact Hb|].
  cbn [blank] in Ha. apply andb_true_iff in Ha as [Hx Ha].
  rewrite app_cons. cbn [blank]. now rewrite Hx, IH.
Qed.

Lemma scanRight_start (s : string) (n : nat) : strings.scanRight s n n = inl n.
Proof. destruct n; [reflexivity|]. cbn [strings.scanRight]. now rewrite Nat.leb_refl. Qed.

Lemma TrimSpace_blank (s : string) : blank s = true -> strings.TrimSpace s = "".
Proof.
  intros Hs. unfold strings.TrimSpace.
  rewrite <- (append_empty_r s) at 1. rewrite scanLeft_blank by assumption.
  cbn [strings.scanLeft Nat.add]. rewrite scanRight_start.
  unfold slice. now rewrite Nat.sub_diag.
Qed.

(** [TrimSpace] takes the ASCII white space off both ends. *)
Lemma TrimSpace_ascii (pre core post : string) :
  blank pre = true -> blank post = true -> trimmed core = true ->
  strings.TrimSpace (pre ++ core ++ post)%string = core.
Proof.
  intros Hpre Hpost Hcore. destruct core as [|c core].
  { rewrite app_empty. now apply TrimSpace_blank, blank_app. }
  unfold trimmed in Hcore. apply andb_true_iff in Hcore as [Hfirst Hlast].
  unfold inked in Hfirst, Hlast.
  apply andb_true_iff in Hfirst as [Hf1 Hf2], Hlast as [Hl1 Hl2].
  apply Z.ltb_lt in Hf1, Hl1.
  change (at_ (String c core) 0) with (code c) in Hf1, Hf2.
  unfold strings.TrimSpace.
  rewrite scanLeft_blank by assumption. rewrite app_cons.
  cbn [strings.scanLeft Nat.add].
  replace (utf8.RuneSelf <=? code c) with false by (symmetry; apply Z.leb_gt; lia).
  rewrite Hf2. rewrite <- app_cons.
  set (whole := String c core) in *.
  assert (Hwhole : len whole = S (len core)) by reflexivity.
  rewrite (append_assoc pre whole post).
  replace (len ((pre ++ whole) ++ post)%string)
    with (len (pre ++ whole)%string + len post)%nat
    by (symmetry; apply len_app).
  rewrite scanRight_blank; try assumption; try lia; [|rewrite len_app; lia].
  replace (len (pre ++ whole)%string) with (S (len pre + len core))
    by (rewrite len_app; lia).
  cbn [strings.scanRight].
  replace (S (len pre + len core) <=? len pre)%nat with false
    by (symmetry; apply Nat.leb_gt; lia).
  rewrite <- (append_assoc pre whole post), at_app_r, at_app_l by lia.
  replace (Z.of_nat (len whole) - 1) with (Z.of_nat (len core)) in Hl1, Hl2 by lia.
  replace (utf8.RuneSelf <=? at_ whole (Z.of_nat (len core))) with false
    by (symmetry; apply Z.leb_gt; lia).
  rewrite Hl2. unfold slice. rewrite drop_app.
  replace (S (len pre + len core) - len pre)%nat with (len whole) by lia.
  apply take_app.
Qed.

(** * The claims of the specification *)

Section Claims.

Variable unrepresentable : float64.t -> Z.


(** C2.  [computePoints] panics on the README's receipt once its date is
    written without dashes: [dateParts[2]] is out of range. *)
Theorem computePoints_undated_panics :
  valid undated = true
  /\ computePoints unrepresentable undated = Panic "index out of range".
Proof. split; reflexivity. Qed.

(** What the quarter rule does when [strconv.ParseFloat] rejects the total:
    the statement still runs, on the value returned with the error.  After
    a syntax error that value is 0 and the rule adds 25 points; after a
    range error it is an infinity and the rule adds nothing. *)
Lemma quarterRule_unparsable (receipt : Receipt) (points : Z)
        (v : float64.t) (e : strconv.error) :
  strconv.ParseFloat (TotalAmount receipt) = (v, Some e) ->
  quarterRule receipt points
  = match e with
    | strconv.ErrSyntax => Int.add points 25
    | strconv.ErrRange => points
    end.
Proof.
  intros H. unfold quarterRule. rewrite H.
  apply ParseFloat_error in H. destruct e.
  - subst v. reflexivity.
  - destruct H as [[] ->]; reflexivity.
Qed.

(** C4 (as amended).  The trimmed description "Mountain Dew 12PK" has 17
    bytes, which 3 does not divide, so the description rule adds nothing for
    that item.  Its price "6.49" has the share [int(math.Ceil(6.49 * 0.2))],
    which is 2, and an item with that price adds 2 when 3 divides the length
    of its trimmed description. *)
Theorem mountain_dew_share :
  trimmedLength dew = 17%nat
  /\ descriptionRule unrepresentable readme 0 = 0
  /\ priceShare unrepresentable dew = 2
  /\ forall description : string,
      (3 | trimmedLength (mkItem description "6.49"))%nat ->
      descriptionRule unrepresentable (withItems readme [mkItem description "6.49"]) 0 = 2.
Proof.
  repeat split; try reflexivity.
  intros description Hd. unfold descriptionRule, withItems.
  cbn [PurchasedItems fold_left].
  rewrite descriptionStep_sum by (unfold Int.in_range, Int.min, Int.max; lia).
  unfold itemPoints. apply Nat.Lcm0.mod_divide in Hd. rewrite Hd.
  reflexivity.
Qed.


(** C6.  The statement of the round-dollar rule adds 50 points exactly when
    the text of the total ends with ".00", whatever the text before it, and
    nothing otherwise; on the total "10.00" this rule and the quarter rule
    together give 75 points. *)
Theorem round_dollar_rule (receipt : Receipt) (points : Z) :
  ((exists pre, TotalAmount receipt = (pre ++ ".00")%string) ->
   roundDollarRule receipt points = Int.add points 50)
  /\ (~ (exists pre, TotalAmount receipt = (pre ++ ".00")%string) ->
      roundDollarRule receipt points = points)
  /\ quarterRule (withTotal receipt "10.00")
        (roundDollarRule (withTotal receipt "10.00") 0) = 75.
Proof.
  unfold roundDollarRule at 1 2.
  pose proof (HasSuffix_app (TotalAmount receipt) ".00") as Hs.
  destruct (strings.HasSuffix _ _); repeat split; try reflexivity.
  - intros H. exfalso. apply H, Hs. reflexivity.
  - intros H%Hs. discriminate.
Qed.

(** C7 (as amended).  For every item the body of the loop over the items
    adds [int(math.Ceil(price * 0.2))] when 3 divides the length of the
    trimmed description, and nothing otherwise; a description that trims to
    the empty string has length 0 and counts.  The number added is the
    ceiling of the float product of the parsed price and 0.2 where that
    ceiling fits an [int]; where it does not, it is what the conversion of
    the implementation gives.  The rule is the loop of this body over the
    items, and adds up what the items add, with wrap-around.  Trimming
    takes the white space off both ends: ASCII white space around a text
    that begins and ends with other ASCII bytes leaves the text, and white
    space outside ASCII is taken off as well, while other bytes stay. *)
Theorem description_length_rule (receipt : Receipt) (points : Z) :
  descriptionRule unrepresentable receipt points
  = fold_left (descriptionStep unrepresentable) (PurchasedItems receipt) points
  /\ (forall (item : Item) (p : Z),
      (3 | trimmedLength item)%nat ->
      descriptionStep unrepresentable p item
      = Int.add p (priceShare unrepresentable item))
  /\ (forall (item : Item) (p : Z),
      ~ (3 | trimmedLength item)%nat ->
      descriptionStep unrepresentable p item = p)
  /\ (forall (item : Item) (p : Z),
      strings.TrimSpace (Description item) = "" ->
      descriptionStep unrepresentable p item
      = Int.add p (priceShare unrepresentable item))
  /\ (forall (item : Item) (z : Z),
      isCeiling z (float64.mul (fst (strconv.ParseFloat (Price item))) float64.c0_2) ->
      Int.in_range z ->
      priceShare unrepresentable item = z)
  /\ (forall (item : Item) (z : Z),
      isCeiling z (float64.mul (fst (strconv.ParseFloat (Price item))) float64.c0_2) ->
      ~ Int.in_range z ->
      priceShare unrepresentable item
      = Int.wrap (unrepresentable
                    (math.Ceil (float64.mul (fst (strconv.ParseFloat (Price item)))
                                            float64.c0_2))))
  /\ (Int.in_range points ->
      descriptionRule unrepresentable receipt points
      = Int.wrap (points + sumZ (map (itemPoints unrepresentable) (PurchasedItems receipt))))
  /\ (forall (item : Item) (pre core post : string),
      Description item = (pre ++ core ++ post)%string ->
      blank pre = true -> blank post = true -> trimmed core = true ->
      trimmedLength item = len core)
  /\ (forall price : string,
      trimmedLength (mkItem (noBreakSpace ++ "abc" ++ noBreakSpace) price) = 3%nat
      /\ trimmedLength (mkItem ("abc" ++ ideographicSpace ++ " ") price) = 3%nat
      /\ trimmedLength (mkItem (" " ++ eAcute ++ "abc" ++ eAcute ++ " ") price) = 7%nat).
Proof.
  split; [reflexivity|].
  assert (Hstep : forall item p,
             descriptionStep unrepresentable p item
             = if (trimmedLength item mod 3 =? 0)%nat
               then Int.add p (priceShare unrepresentable item) else p).
  { intros item p. unfold descriptionStep, priceShare. rewrite rem_3_nat.
    fold (trimmedLength item).
    destruct (_ =? _)%nat; [|reflexivity].
    now destruct (strconv.ParseFloat (Price item)). }
  (* [split] also closes the three evaluations of the last part. *)
  repeat split.
  - intros item p Hd. rewrite Hstep.
    apply Nat.Lcm0.mod_divide in Hd. now rewrite Hd.
  - intros item p Hd. rewrite Hstep.
    destruct (Nat.eqb_spec (trimmedLength item mod 3) 0) as [H0|]; [|reflexivity].
    apply Nat.Lcm0.mod_divide in H0. contradiction.
  - intros item p He. rewrite Hstep. unfold trimmedLength. now rewrite He.
  - apply priceShare_ceiling.
  - intros item z. apply (priceShare_unrepresentable unrepresentable item z).
  - intros Hp. now apply descriptionRule_sum.
  - intros item pre core post Hd Hpre Hpost Hcore. unfold trimmedLength.
    now rewrite Hd, TrimSpace_ascii.
Qed.

(** C10.  The score does not depend on the order of the items: a receipt
    and the same receipt with its items permuted have the same outcome. *)
Theorem computePoints_permutation (receipt : Receipt) (items : list Item) :
  Permutation (PurchasedItems receipt) items ->
  computePoints unrepresentable (withItems receipt items)
  = computePoints unrepresentable receipt.
Proof.
  intros Hperm. rewrite !computePoints_split.
  assert (Hpair : pairPoints (withItems receipt items) = pairPoints receipt).
  { unfold pairPoints, withItems. cbn [PurchasedItems].
    now rewrite (Permutation_length Hperm). }
  assert (Hdesc : descriptionPoints unrepresentable (withItems receipt items)
                  = descriptionPoints unrepresentable receipt).
  { unfold descriptionPoints, withItems. cbn [PurchasedItems].
    symmetry. apply sumZ_permutation. now apply Permutation_map. }
  rewrite Hpair, Hdesc. reflexivity.
Qed.

(** X4.  [computePoints] panics exactly on the receipts whose date splits at
    "-" into fewer than three parts; on every other receipt it returns an
    [int]. *)
Theorem computePoints_outcome (receipt : Receipt) :
  ((List.length (strings.Split (DateOfPurchase receipt) "-") < 3)%nat ->
   computePoints unrepresentable receipt = Panic "index out of range")
  /\ ((3 <= List.length (strings.Split (DateOfPurchase receipt) "-"))%nat ->
      exists z : Z,
        computePoints unrepresentable receipt = Return z /\ Int.in_range z).
Proof.
  rewrite computePoints_split. cbv zeta. split; intros Hlen.
  - unfold oddDayRule, index.
    destruct (nth_error _ 2) as [d|] eqn:E; [|reflexivity].
    assert (nth_error (strings.Split (DateOfPurchase receipt) "-") 2 <> None)
      as H%nth_error_Some by congruence.
    lia.
  - rewrite oddDayRule_sum by (apply wrap_in_range || assumption).
    cbn. rewrite afternoonRule_sum by apply wrap_in_range.
    eexists. split; [reflexivity|apply wrap_in_range].
Qed.

End Claims.



(** C3, the code breaks the claim.  The total "abc" is not the text of a
    number: [strconv.ParseFloat] rejects it with a syntax error.  The
    quarter rule drops the error, tests the value 0 that comes with it, and
    adds its 25 points, so that the receipt of the README with this total
    scores 37 and not 12.  The same text adds nothing where it stands for a
    price, a day or an hour. *)
Theorem unparsable_total_scores :
  strconv.ParseFloat (TotalAmount (withTotal readme "abc"))
  = (float64.zero, Some strconv.ErrSyntax)
  /\ quarterRule (withTotal readme "abc") 0 = 25
  /\ computePoints amd64 readme = Return 12
  /\ computePoints amd64 (withTotal readme "abc") = Return 37
  /\ descriptionStep amd64 0 (mkItem "abc" "abc") = 0
  /\ oddDayRule (mkReceipt "Target" "2022-01-abc" "13:01" "35.35" [dew]) 0 = Return 0
  /\ afternoonRule (mkReceipt "Target" "2022-01-01" "abc" "35.35" [dew]) 0 = Return 0.
Proof. repeat split; reflexivity. Qed.

(** C4, the claim as stated fails: the item adds nothing, not 2 points. *)
Lemma mountain_dew_adds_nothing :
  descriptionRule amd64 readme 0 <> 2.
Proof. vm_compute. discriminate. Qed.

Lemma mountain_dew_share_witness :
  (3 | trimmedLength (mkItem "Emils Cheese Pizza" "6.49"))%nat
  /\ descriptionRule amd64 (withItems readme [mkItem "Emils Cheese Pizza" "6.49"]) 0 = 2.
Proof.
  split; [exists 6%nat; reflexivity|].
  apply (mountain_dew_share amd64). exists 6%nat. reflexivity.
Defined.


Lemma round_dollar_rule_witness :
  (exists pre, TotalAmount (withTotal readme "9.00") = (pre ++ ".00")%string)
  /\ roundDollarRule (withTotal readme "9.00") 12 = Int.add 12 50.
Proof.
  assert (H : exists pre, TotalAmount (withTotal readme "9.00") = (pre ++ ".00")%string)
    by (exists "9"; reflexivity).
  split; [exact H|].
  exact (proj1 (round_dollar_rule (withTotal readme "9.00") 12) H).
Defined.

(** C7, the claim as stated fails: the description "abc" has length 3 and
    the product of the price "5e19" and 0.2 has the ceiling [10 ^ 19], above
    the largest [int]; on amd64 the item adds [- 2 ^ 63], not that ceiling. *)
Lemma description_share_overflows :
  (3 | trimmedLength (mkItem "abc" "5e19"))%nat
  /\ isCeiling (10 ^ 19)
       (float64.mul (fst (strconv.ParseFloat (Price (mkItem "abc" "5e19")))) float64.c0_2)
  /\ descriptionStep amd64 0 (mkItem "abc" "5e19") = - 2 ^ 63
  /\ descriptionStep amd64 0 (mkItem "abc" "5e19") <> 0 + 10 ^ 19.
Proof.
  split; [exists 1%nat; reflexivity|].
  split; [vm_compute; reflexivity|].
  split; [reflexivity|]. vm_compute. discriminate.
Qed.

Lemma description_length_rule_witness :
  (3 | trimmedLength (mkItem "  Emils Cheese Pizza " "12.25"))%nat
  /\ trimmedLength (mkItem "  Emils Cheese Pizza " "12.25") = 18%nat
  /\ descriptionStep amd64 12 (mkItem "  Emils Cheese Pizza " "12.25") = 15.
Proof.
  assert (H : (3 | trimmedLength (mkItem "  Emils Cheese Pizza " "12.25"))%nat)
    by (exists 6%nat; reflexivity).
  split; [exact H|]. split.
  - exact (proj1 (proj2 (proj2 (proj2 (proj2 (proj2 (proj2 (proj2
             (description_length_rule amd64 readme 0))))))))
             (mkItem "  Emils Cheese Pizza " "12.25")
             "  " "Emils Cheese Pizza" " " eq_refl eq_refl eq_refl eq_refl).
  - exact (proj1 (proj2 (description_length_rule amd64 readme 0))
             (mkItem "  Emils Cheese Pizza " "12.25") 12 H).
Defined.

Lemma computePoints_permutation_witness :
  Permutation
    (PurchasedItems
       (withItems readme [mkItem "Emils Cheese Pizza" "12.25"; mkItem "abc" "6.49"; dew]))
    [dew; mkItem "abc" "6.49"; mkItem "Emils Cheese Pizza" "12.25"]
  /\ computePoints amd64
       (withItems
          (withItems readme [mkItem "Emils Cheese Pizza" "12.25"; mkItem "abc" "6.49"; dew])
          [dew; mkItem "abc" "6.49"; mkItem "Emils Cheese Pizza" "12.25"])
     = computePoints amd64
         (withItems readme [mkItem "Emils Cheese Pizza" "12.25"; mkItem "abc" "6.49"; dew]).
Proof.
  assert (H : Permutation
                (PurchasedItems
                   (withItems readme
                      [mkItem "Emils Cheese Pizza" "12.25"; mkItem "abc" "6.49"; dew]))
                [dew; mkItem "abc" "6.49"; mkItem "Emils Cheese Pizza" "12.25"]).
  { cbn [PurchasedItems withItems].
    apply (Permutation_rev [mkItem "Emils Cheese Pizza" "12.25"; mkItem "abc" "6.49"; dew]). }
  split; [exact H|].
  exact (computePoints_permutation amd64
           (withItems readme [mkItem "Emils Cheese Pizza" "12.25"; mkItem "abc" "6.49"; dew])
           [dew; mkItem "abc" "6.49"; mkItem "Emils Cheese Pizza" "12.25"] H).
Defined.

Lemma valid_complete (receipt : Receipt) : valid receipt = true <-> complete receipt.
Proof.
  unfold valid, complete.
  rewrite negb_true_iff, !orb_false_iff, !String.eqb_neq, Nat.eqb_neq.
  destruct (PurchasedItems receipt); cbn [List.length]; intuition (congruence || lia).
Qed.

Section Store.

Variable unrepresentable : float64.t -> Z.
Variable uuid : nat -> string.

(** C8.  A complete receipt submitted with POST is filed under the
    identifier the response names, and looking that identifier up in the
    map gives back the receipt, all five fields as submitted. *)
Theorem store_round_trip (srv : Server) (r : Request) (receipt : Receipt) :
  Method r = "POST" -> Body r = Some receipt -> complete receipt ->
  exists (id : string) (srv' : Server),
    processReceipt uuid srv r = (srv', ReceiptResponse id)
    /\ receiptStorage srv' !! id = Some receipt.
Proof.
  intros Hm Hb Hc%valid_complete. unfold processReceipt.
  rewrite Hm, Hb, Hc.
  change (String.eqb "POST" "POST") with true. cbn [negb].
  eexists _, _. split; [reflexivity|].
  cbn [receiptStorage]. apply lookup_insert_eq.
Qed.

(** C9.  A receipt that lacks a required field is answered with the error
    400; the server is left as it was: nothing is stored and no identifier
    is generated. *)
Theorem incomplete_receipt_rejected (srv : Server) (r : Request) (receipt : Receipt) :
  Method r = "POST" -> Body r = Some receipt -> ~ complete receipt ->
  processReceipt uuid srv r
  = (srv, Error "Invalid receipt format. Please verify input." StatusBadRequest).
Proof.
  intros Hm Hb Hc. unfold processReceipt. rewrite Hm, Hb.
  change (String.eqb "POST" "POST") with true. cbn [negb].
  destruct (valid receipt) eqn:Hv; [|reflexivity].
  apply valid_complete in Hv. contradiction.
Qed.

(** X1.  A query for the identifier of a stored receipt scores that receipt. *)
Theorem query_after_submit (srv : Server) (r q : Request) (receipt : Receipt) :
  Method r = "POST" -> Body r = Some receipt -> complete receipt ->
  matchesID (uuid (generated srv)) = true ->
  Method q = "GET" ->
  Path q = ("/receipts/" ++ uuid (generated srv) ++ "/points")%string ->
  processReceipt uuid srv r = (fst (processReceipt uuid srv r),
                               ReceiptResponse (uuid (generated srv)))
  /\ getPoints unrepresentable (fst (processReceipt uuid srv r)) q
     = (points ← computePoints unrepresentable receipt; mret (PointsResponse points)).
Proof.
  intros Hm Hb Hc%valid_complete Hid Hq Hp. unfold processReceipt.
  rewrite Hm, Hb, Hc.
  change (String.eqb "POST" "POST") with true. cbn [negb fst].
  split; [reflexivity|].
  unfold getPoints. rewrite Hq, Hp.
  change (String.eqb "GET" "GET") with true. cbn [negb].
  rewrite TrimPrefix_app, TrimSuffix_app, Hid. cbn [negb receiptStorage].
  now rewrite lookup_insert_eq.
Qed.

(** X2.  A query for an identifier that is not in the map is answered with
    the error 404. *)
Theorem query_unknown (srv : Server) (q : Request) (id : string) :
  Method q = "GET" ->
  Path q = ("/receipts/" ++ id ++ "/points")%string ->
  matchesID id = true ->
  receiptStorage srv !! id = None ->
  getPoints unrepresentable srv q = Return (Error "Receipt not found" StatusNotFound).
Proof.
  intros Hq Hp Hid Hn. unfold getPoints. rewrite Hq, Hp.
  change (String.eqb "GET" "GET") with true. cbn [negb].
  rewrite TrimPrefix_app, TrimSuffix_app, Hid. cbn [negb].
  now rewrite Hn.
Qed.

End Store.

Lemma store_round_trip_witness :
  complete readme
  /\ exists (id : string) (srv' : Server),
      processReceipt (fun _ => someID) (mkServer ∅ 0)
        (mkRequest "POST" "/receipts/process" (Some readme))
      = (srv', ReceiptResponse id)
      /\ receiptStorage srv' !! id = Some readme.
Proof.
  assert (H : complete readme) by (repeat split; discriminate).
  split; [exact H|].
  exact (store_round_trip (fun _ => someID) (mkServer ∅ 0)
           (mkRequest "POST" "/receipts/process" (Some readme)) readme
           eq_refl eq_refl H).
Defined.

Lemma incomplete_receipt_rejected_witness :
  ~ complete (withTotal readme "")
  /\ processReceipt (fun _ => someID) (mkServer ∅ 0)
       (mkRequest "POST" "/receipts/process" (Some (withTotal readme "")))
     = (mkServer ∅ 0,
        Error "Invalid receipt format. Please verify input." StatusBadRequest).
Proof.
  assert (H : ~ complete (withTotal readme "")).
  { intros (_ & _ & _ & Ht & _). now apply Ht. }
  split; [exact H|].
  exact (incomplete_receipt_rejected (fun _ => someID) (mkServer ∅ 0)
           (mkRequest "POST" "/receipts/process" (Some (withTotal readme "")))
           (withTotal readme "") eq_refl eq_refl H).
Defined.

Lemma query_after_submit_witness :
  getPoints amd64
    (fst (processReceipt (fun _ => someID) (mkServer ∅ 0)
            (mkRequest "POST" "/receipts/process" (Some readme))))
    (mkRequest "GET" "/receipts/7fb1377b-b223-49d9-a31a-5a02701dd310/points" None)
  = (points ← computePoints amd64 readme; mret (PointsResponse points)).
Proof.
  assert (H : complete readme) by (repeat split; discriminate).
  exact (proj2 (query_after_submit amd64 (fun _ => someID) (mkServer ∅ 0)
                  (mkRequest "POST" "/receipts/process" (Some readme))
                  (mkRequest "GET" "/receipts/7fb1377b-b223-49d9-a31a-5a02701dd310/points" None)
                  readme eq_refl eq_refl H eq_refl eq_refl eq_refl)).
Defined.

Lemma query_unknown_witness :
  getPoints amd64 (mkServer ∅ 0)
    (mkRequest "GET" "/receipts/7fb1377b-b223-49d9-a31a-5a02701dd310/points" None)
  = Return (Error "Receipt not found" StatusNotFound).
Proof.
  exact (query_unknown amd64 (mkServer ∅ 0)
           (mkRequest "GET" "/receipts/7fb1377b-b223-49d9-a31a-5a02701dd310/points" None)
           someID eq_refl eq_refl eq_refl (lookup_empty someID)).
Defined.

(** X3.  The retailer rule counts the ASCII letters and digits among the
    bytes of the name, whatever the other bytes are, valid UTF-8 or not. *)
Theorem retailer_counts_bytes (receipt : Receipt) :
  retailerRule receipt 0 = Int.wrap (alnumCount (StoreName receipt)).
Proof.
  unfold retailerRule, utf8.range.
  rewrite fold_count by (unfold Int.in_range, Int.min, Int.max; lia).
  now rewrite rangeFrom_alnum.
Qed.

(** ** The scenarios of the specification, run on the embedding *)

Example retailer_Target : retailerRule readme 0 = 6.
Proof. reflexivity. Qed.

Example total_35_35 : quarterRule readme (roundDollarRule readme 0) = 0.
Proof. reflexivity. Qed.

Example total_10_00 :
  quarterRule (withTotal readme "10.00") (roundDollarRule (withTotal readme "10.00") 0) = 75.
Proof. reflexivity. Qed.

Example day_and_hour :
  oddDayRule readme 0 = Return 6 /\ afternoonRule readme 0 = Return 0.
Proof. split; reflexivity. Qed.

Example share_of_6_49 :
  isCeiling 2 (float64.mul (fst (strconv.ParseFloat "6.49")) float64.c0_2).
Proof. vm_compute. split; [reflexivity|discriminate]. Qed.

Example readme_points : computePoints amd64 readme = Return 12.
Proof. reflexivity. Qed.

(** A receipt of five items, two of them with a description whose trimmed
    length 3 divides, and one of four items bought at 14:33. *)
Example five_items :
  computePoints amd64
    (mkReceipt "Target" "2022-01-01" "13:01" "35.35"
       [mkItem "Mountain Dew 12PK" "6.49"; mkItem "Emils Cheese Pizza" "12.25";
        mkItem "Knorr Creamy Chicken" "1.26"; mkItem "Doritos Nacho Cheese" "3.35";
        mkItem "   Klarbrunn 12-PK 12 FL OZ  " "12.00"])
  = Return 28.
Proof. reflexivity. Qed.

Example four_items :
  computePoints amd64
    (mkReceipt "M&M Corner Market" "2022-03-20" "14:33" "9.00"
       [mkItem "Gatorade" "2.25"; mkItem "Gatorade" "2.25";
        mkItem "Gatorade" "2.25"; mkItem "Gatorade" "2.25"])
  = Return 109.
Proof. reflexivity. Qed.

(** A description of white space only trims to the empty string. *)
Example blank_description : strings.TrimSpace "   " = "".
Proof. reflexivity. Qed.

(** ** What [processReceipt] does to the server *)

Section Submission.

Variable uuid : nat -> string.

Lemma processReceipt_accepted (srv : Server) (r : Request) :
  accepted r = true ->
  exists receipt,
    Body r = Some receipt /\ Method r = "POST" /\ complete receipt
    /\ processReceipt uuid srv r
       = (mkServer (<[uuid (generated srv) := receipt]> (receiptStorage srv))
                   (S (generated srv)),
          ReceiptResponse (uuid (generated srv))).
Proof.
  unfold accepted, processReceipt.
  intros [Hm Hb]%andb_true_iff. rewrite Hm. cbn [negb].
  destruct (Body r) as [receipt|]; [|discriminate].
  rewrite Hb. cbn [negb]. exists receipt.
  apply String.eqb_eq in Hm. apply valid_complete in Hb. auto.
Qed.

Lemma processReceipt_rejected (srv : Server) (r : Request) :
  accepted r = false ->
  exists msg status,
    processReceipt uuid srv r = (srv, Error msg status)
    /\ (status = StatusMethodNotAllowed \/ status = StatusBadRequest).
Proof.
  unfold accepted, processReceipt. intros H.
  destruct (String.eqb (Method r) "POST"); cbn [negb andb] in *; [|eauto].
  destruct (Body r) as [receipt|]; [|eauto].
  rewrite H. cbn [negb]. eauto.
Qed.

(** X5.  [processReceipt] answers with an error only when it leaves the
    server as it was, and with an identifier only for a POST that carries a
    complete receipt, which it has then stored under that identifier; it
    never answers with points. *)
Theorem processReceipt_response (srv srv' : Server) (r : Request) (response : Response) :
  processReceipt uuid srv r = (srv', response) ->
  match response with
  | Error _ status =>
      srv' = srv /\ (status = StatusMethodNotAllowed \/ status = StatusBadRequest)
  | ReceiptResponse id =>
      Method r = "POST" /\ id = uuid (generated srv)
      /\ generated srv' = S (generated srv)
      /\ exists receipt,
          Body r = Some receipt /\ complete receipt
          /\ receiptStorage srv' = <[id := receipt]> (receiptStorage srv)
  | PointsResponse _ => False
  end.
Proof.
  intros H. destruct (accepted r) eqn:Ha.
  - destruct (processReceipt_accepted srv r Ha) as (receipt & Hb & Hm & Hc & Hp).
    rewrite Hp in H. injection H as <- <-. cbn [generated receiptStorage].
    repeat split; try assumption. eauto.
  - destruct (processReceipt_rejected srv r Ha) as (msg & status & Hp & Hs).
    rewrite Hp in H. injection H as <- <-. auto.
Qed.

(** X6.  A submission touches one key of the map: the receipt stored under
    any other identifier is what it was before. *)
Theorem processReceipt_frame (srv : Server) (r : Request) (id : string) :
  id <> uuid (generated srv) ->
  receiptStorage (fst (processReceipt uuid srv r)) !! id = receiptStorage srv !! id.
Proof.
  intros Hid. destruct (accepted r) eqn:Ha.
  - destruct (processReceipt_accepted srv r Ha) as (receipt & _ & _ & _ & ->).
    cbn [fst receiptStorage]. now apply lookup_insert_ne.
  - destruct (processReceipt_rejected srv r Ha) as (msg & status & -> & _).
    reflexivity.
Qed.

End Submission.

(** ** The server over a history of submissions *)

Section Histories.

Variable unrepresentable : float64.t -> Z.
Variable uuid : nat -> string.

Lemma sound_initial : sound uuid initial.
Proof. intros id receipt H. cbn in H. now rewrite lookup_empty in H. Qed.

Lemma sound_processReceipt (srv : Server) (r : Request) :
  sound uuid srv -> sound uuid (fst (processReceipt uuid srv r)).
Proof.
  intros Hs. destruct (accepted r) eqn:Ha.
  - destruct (processReceipt_accepted uuid srv r Ha) as (receipt & _ & _ & Hc & ->).
    cbn [fst]. intros id receipt'. cbn [receiptStorage generated].
    destruct (decide (id = uuid (generated srv))) as [->|Hne].
    + rewrite lookup_insert_eq. intros [= <-]. split; [assumption|].
      exists (generated srv). split; [lia|reflexivity].
    + rewrite lookup_insert_ne by congruence. intros H.
      destruct (Hs id receipt' H) as (Hc' & i & Hi & ->).
      split; [assumption|]. exists i. split; [lia|reflexivity].
  - now destruct (processReceipt_rejected uuid srv r Ha) as (msg & status & -> & _).
Qed.

Lemma serve_app (srv : Server) (requests more : list Request) :
  serve uuid srv (requests ++ more) = serve uuid (serve uuid srv requests) more.
Proof. unfold serve. apply fold_left_app. Qed.

Lemma sound_serve (requests : list Request) :
  forall srv, sound uuid srv -> sound uuid (serve uuid srv requests).
Proof.
  induction requests as [|r requests IH]; intros srv Hs; [exact Hs|].
  cbn [serve fold_left]. apply IH. now apply sound_processReceipt.
Qed.

(** X7.  At every moment each receipt in the map is complete, and the key it
    is filed under is one of the identifiers generated so far. *)
Theorem stored_receipts_sound (requests : list Request) (id : string) (receipt : Receipt) :
  receiptStorage (serve uuid initial requests) !! id = Some receipt ->
  complete receipt
  /\ exists i, (i < generated (serve uuid initial requests))%nat /\ id = uuid i.
Proof. apply sound_serve, sound_initial. Qed.

(** X8.  A query for an identifier that has not been generated so far is
    never answered with points: the answer is the error 404, or 400 when the
    identifier is not well formed. *)
Theorem query_never_issued (requests : list Request) (q : Request) :
  Method q = "GET" ->
  (forall i, (i < generated (serve uuid initial requests))%nat ->
             uuid i <> receiptID (Path q)) ->
  getPoints unrepresentable (serve uuid initial requests) q
  = Return (if matchesID (receiptID (Path q))
            then Error "Receipt not found" StatusNotFound
            else Error "Invalid receipt ID format" StatusBadRequest).
Proof.
  intros Hm Hn. unfold getPoints. rewrite Hm.
  change (String.eqb "GET" "GET") with true. cbn [negb].
  fold (receiptID (Path q)).
  destruct (matchesID (receiptID (Path q))); cbn [negb]; [|reflexivity].
  destruct (receiptStorage _ !! _) as [receipt|] eqn:E; [|reflexivity].
  destruct (sound_serve requests initial sound_initial _ _ E) as (_ & i & Hi & Hid).
  exfalso. apply (Hn i Hi). now symmetry.
Qed.

Hypothesis uuid_injective : forall i j, uuid i = uuid j -> i = j.

Lemma fresh (srv : Server) :
  sound uuid srv -> receiptStorage srv !! uuid (generated srv) = None.
Proof.
  intros Hs. destruct (receiptStorage srv !! uuid (generated srv)) as [receipt|] eqn:E;
    [|reflexivity].
  destruct (Hs _ _ E) as (_ & i & Hi & Heq). apply uuid_injective in Heq. lia.
Qed.

Lemma persists_serve (more : list Request) :
  forall srv id receipt,
    sound uuid srv ->
    receiptStorage srv !! id = Some receipt ->
    receiptStorage (serve uuid srv more) !! id = Some receipt.
Proof.
  induction more as [|r more IH]; intros srv id receipt Hs H; [exact H|].
  cbn [serve fold_left]. apply IH; [now apply sound_processReceipt|].
  destruct (accepted r) eqn:Ha.
  - destruct (processReceipt_accepted uuid srv r Ha) as (stored & _ & _ & _ & ->).
    cbn [fst receiptStorage]. rewrite lookup_insert_ne; [assumption|].
    intros <-. rewrite fresh in H by assumption. discriminate.
  - now destruct (processReceipt_rejected uuid srv r Ha) as (msg & status & -> & _).
Qed.

(** X9.  As long as the identifiers generated are pairwise different, a
    receipt once stored is never overwritten or removed: it stays under its
    identifier through every later submission. *)
Theorem stored_receipt_persists (requests more : list Request)
        (id : string) (receipt : Receipt) :
  receiptStorage (serve uuid initial requests) !! id = Some receipt ->
  receiptStorage (serve uuid initial (requests ++ more)) !! id = Some receipt.
Proof.
  intros H. rewrite serve_app.
  apply persists_serve; [apply sound_serve, sound_initial|assumption].
Qed.

Lemma count_serve (requests : list Request) :
  forall srv,
    sound uuid srv ->
    size (receiptStorage srv) = generated srv ->
    size (receiptStorage (serve uuid srv requests))
    = generated (serve uuid srv requests)
    /\ generated (serve uuid srv requests)
       = (generated srv + List.length (List.filter accepted requests))%nat.
Proof.
  induction requests as [|r requests IH]; intros srv Hs Hn.
  - cbn. split; [assumption|lia].
  - cbn [serve fold_left List.filter].
    pose proof (sound_processReceipt srv r Hs) as Hs'.
    destruct (accepted r) eqn:Ha.
    + destruct (processReceipt_accepted uuid srv r Ha) as (receipt & _ & _ & _ & Hp).
      rewrite Hp in *. cbn [fst] in *.
      destruct (IH _ Hs') as [H1 H2].
      { cbn [receiptStorage generated].
        rewrite map_size_insert_None by now apply fresh. now rewrite Hn. }
      split; [exact H1|]. unfold serve in H2 |- *. rewrite H2.
      cbn [generated List.length]. lia.
    + destruct (processReceipt_rejected uuid srv r Ha) as (msg & status & Hp & _).
      rewrite Hp in *. cbn [fst] in *. now apply IH.
Qed.

(** X10.  As long as the identifiers generated are pairwise different, the
    map holds one receipt per accepted submission: its size is the number of
    identifiers generated, which is the number of requests accepted. *)
Theorem store_size (requests : list Request) :
  size (receiptStorage (serve uuid initial requests))
  = List.length (List.filter accepted requests)
  /\ generated (serve uuid initial requests) = List.length (List.filter accepted requests).
Proof.
  destruct (count_serve requests initial sound_initial) as [H1 H2].
  - cbn. apply map_size_empty.
  - cbn in H2. rewrite H1. auto.
Qed.

End Histories.

(** ** What [getPoints] answers *)

Section Queries.

Variable unrepresentable : float64.t -> Z.

Lemma computePoints_returns (receipt : Receipt) :
  (3 <= List.length (strings.Split (DateOfPurchase receipt) "-"))%nat ->
  exists z, computePoints unrepresentable receipt = Return z.
Proof.
  intros Hlen. rewrite computePoints_split. cbv zeta.
  rewrite oddDayRule_sum by (apply wrap_in_range || assumption).
  cbn. rewrite afternoonRule_sum by apply wrap_in_range. eauto.
Qed.

(** X11.  [getPoints] answers with points only when the map holds a receipt
    under the identifier of the path, and then with the score of that
    receipt; its errors are 405, 400 and 404; it panics only when the stored
    receipt has a date of fewer than three parts. *)
Theorem getPoints_response (srv : Server) (q : Request) :
  match getPoints unrepresentable srv q with
  | Return (PointsResponse points) =>
      Method q = "GET"
      /\ exists receipt,
          receiptStorage srv !! receiptID (Path q) = Some receipt
          /\ computePoints unrepresentable receipt = Return points
  | Return (Error _ status) =>
      status = StatusMethodNotAllowed \/ status = StatusBadRequest
      \/ status = StatusNotFound
  | Return (ReceiptResponse _) => False
  | Panic _ =>
      exists receipt,
        receiptStorage srv !! receiptID (Path q) = Some receipt
        /\ (List.length (strings.Split (DateOfPurchase receipt) "-") < 3)%nat
  end.
Proof.
  unfold getPoints. fold (receiptID (Path q)).
  destruct (String.eqb_spec (Method q) "GET") as [Hm|Hm]; cbn [negb]; [|cbn; auto].
  destruct (matchesID _); cbn [negb]; [|cbn; auto].
  destruct (receiptStorage srv !! _) as [receipt|] eqn:E; [|cbn; auto].
  destruct (computePoints unrepresentable receipt) as [points|msg] eqn:Ec; cbn.
  - split; [assumption|]. eauto.
  - exists receipt. split; [reflexivity|].
    destruct (Nat.lt_ge_cases
                (List.length (strings.Split (DateOfPurchase receipt) "-")) 3)
      as [Hlt|Hge]; [assumption|].
    apply computePoints_returns in Hge as [z Hz]. congruence.
Qed.

(** X12.  The suffix "/points" of the path is optional: a GET of
    "/receipts/{id}" is answered as a GET of "/receipts/{id}/points" is,
    unless the identifier itself ends with "/points". *)
Theorem points_suffix_optional (srv : Server) (q q' : Request) (id : string) :
  Method q = Method q' ->
  strings.HasSuffix id "/points" = false ->
  Path q = ("/receipts/" ++ id)%string ->
  Path q' = ("/receipts/" ++ id ++ "/points")%string ->
  getPoints unrepresentable srv q = getPoints unrepresentable srv q'.
Proof.
  intros Hm Hs Hp Hp'. unfold getPoints. rewrite Hm, Hp, Hp'.
  rewrite !TrimPrefix_app, TrimSuffix_app.
  assert (Hid : strings.TrimSuffix id "/points" = id)
    by (unfold strings.TrimSuffix; now rewrite Hs).
  now rewrite Hid.
Qed.

End Queries.

(** ** The theorems at work *)

Lemma tally_injective (i j : nat) : tally i = tally j -> i = j.
Proof.
  revert j. induction i as [|i IH]; intros [|j]; cbn [tally]; intros H.
  - reflexivity.
  - now destruct j.
  - now destruct i.
  - f_equal. apply IH. congruence.
Qed.

Lemma processReceipt_response_witness :
  Method (mkRequest "POST" "/receipts/process" (Some readme)) = "POST"
  /\ "0" = tally (generated initial)
  /\ generated (mkServer (<["0" := readme]> ∅) 1) = S (generated initial)
  /\ exists receipt,
      Body (mkRequest "POST" "/receipts/process" (Some readme)) = Some receipt
      /\ complete receipt
      /\ receiptStorage (mkServer (<["0" := readme]> ∅) 1)
         = <["0" := receipt]> (receiptStorage initial).
Proof.
  exact (processReceipt_response tally initial (mkServer (<["0" := readme]> ∅) 1)
           (mkRequest "POST" "/receipts/process" (Some readme))
           (ReceiptResponse "0") eq_refl).
Defined.

Lemma processReceipt_frame_witness :
  receiptStorage
    (fst (processReceipt tally (mkServer (<["0" := readme]> ∅) 1)
            (mkRequest "POST" "/receipts/process" (Some undated)))) !! "0"
  = receiptStorage (mkServer (<["0" := readme]> ∅) 1) !! "0".
Proof.
  apply (processReceipt_frame tally (mkServer (<["0" := readme]> ∅) 1)
           (mkRequest "POST" "/receipts/process" (Some undated)) "0").
  cbn. discriminate.
Defined.

Lemma stored_receipts_sound_witness :
  complete readme
  /\ exists i,
      (i < generated (serve tally initial
                        [mkRequest "POST" "/receipts/process" (Some readme)]))%nat
      /\ "0" = tally i.
Proof.
  apply (stored_receipts_sound tally
           [mkRequest "POST" "/receipts/process" (Some readme)] "0" readme).
  cbn. apply lookup_insert_eq.
Defined.

Lemma query_never_issued_witness :
  getPoints amd64
    (serve tally initial [mkRequest "POST" "/receipts/process" (Some readme)])
    (mkRequest "GET" "/receipts/7fb1377b-b223-49d9-a31a-5a02701dd310/points" None)
  = Return (Error "Receipt not found" StatusNotFound).
Proof.
  apply (query_never_issued amd64 tally
           [mkRequest "POST" "/receipts/process" (Some readme)]
           (mkRequest "GET" "/receipts/7fb1377b-b223-49d9-a31a-5a02701dd310/points" None)).
  - reflexivity.
  - cbn. intros [|i] Hi; [discriminate|lia].
Defined.

Lemma stored_receipt_persists_witness :
  receiptStorage
    (serve tally initial
       ([mkRequest "POST" "/receipts/process" (Some readme)]
        ++ [mkRequest "POST" "/receipts/process" (Some undated)])) !! "0"
  = Some readme.
Proof.
  apply (stored_receipt_persists tally tally_injective
           [mkRequest "POST" "/receipts/process" (Some readme)]
           [mkRequest "POST" "/receipts/process" (Some undated)] "0" readme).
  cbn. apply lookup_insert_eq.
Defined.

Lemma store_size_witness :
  size (receiptStorage
          (serve tally initial
             [mkRequest "POST" "/receipts/process" (Some readme);
              mkRequest "GET" "/receipts/process" None;
              mkRequest "POST" "/receipts/process" (Some (withTotal readme ""));
              mkRequest "POST" "/receipts/process" (Some readme)]))
  = 2%nat.
Proof.
  exact (proj1 (store_size tally tally_injective
                  [mkRequest "POST" "/receipts/process" (Some readme);
                   mkRequest "GET" "/receipts/process" None;
                   mkRequest "POST" "/receipts/process" (Some (withTotal readme ""));
                   mkRequest "POST" "/receipts/process" (Some readme)])).
Defined.

Lemma points_suffix_optional_witness :
  getPoints amd64 (mkServer (<[someID := readme]> ∅) 1)
    (mkRequest "GET" "/receipts/7fb1377b-b223-49d9-a31a-5a02701dd310" None)
  = getPoints amd64 (mkServer (<[someID := readme]> ∅) 1)
      (mkRequest "GET" "/receipts/7fb1377b-b223-49d9-a31a-5a02701dd310/points" None).
Proof.
  exact (points_suffix_optional amd64 (mkServer (<[someID := readme]> ∅) 1)
           (mkRequest "GET" "/receipts/7fb1377b-b223-49d9-a31a-5a02701dd310" None)
           (mkRequest "GET" "/receipts/7fb1377b-b223-49d9-a31a-5a02701dd310/points" None)
           someID eq_refl eq_refl eq_refl eq_refl).
Defined.

(** ** Splitting at a byte *)

Section SplitByte.

Variable c : byte.

Let sep : string := String c EmptyString.

Lemma HasPrefix_byte (b : byte) (s : string) :
  strings.HasPrefix (String b s) sep = (code b =? code c).
Proof.
  unfold strings.HasPrefix, sep. cbn [len String.length take Nat.leb andb].
  cbn [String.eqb]. destruct (Ascii.eqb_spec b c) as [->|Hne].
  - now rewrite Z.eqb_refl.
  - symmetry. apply Z.eqb_neq. intros H. apply Hne.
    unfold code in H.
    apply (f_equal Z.to_N) in H. rewrite !N2Z.id in H.
    apply (f_equal ascii_of_N) in H. now rewrite !ascii_N_embedding in H.
Qed.

Lemma indexFrom_lacks (a : string) :
  forall i rest, lacks c a = true ->
  strings.indexFrom i (a ++ String c rest)%string sep = i + Z.of_nat (len a).
Proof.
  induction a as [|b a IH]; intros i rest Ha.
  - rewrite app_empty. cbn [strings.indexFrom]. rewrite HasPrefix_byte, Z.eqb_refl.
    cbn. lia.
  - cbn [lacks] in Ha. apply andb_true_iff in Ha as [Hb Ha].
    rewrite app_cons. cbn [strings.indexFrom]. rewrite HasPrefix_byte.
    apply negb_true_iff in Hb. rewrite Hb, IH by assumption.
    unfold len. cbn [String.length]. lia.
Qed.

Lemma indexFrom_none (a : string) :
  forall i, lacks c a = true -> strings.indexFrom i a sep = -1.
Proof.
  induction a as [|b a IH]; intros i Ha; [reflexivity|].
  cbn [lacks] in Ha. apply andb_true_iff in Ha as [Hb Ha].
  cbn [strings.indexFrom]. rewrite HasPrefix_byte.
  apply negb_true_iff in Hb. now rewrite Hb, IH.
Qed.

Lemma countFrom_cons (a rest : string) :
  lacks c a = true ->
  strings.countFrom 0 (a ++ String c rest)%string sep
  = S (strings.countFrom 0 rest sep).
Proof.
  induction a as [|b a IH]; intros Ha.
  - rewrite app_empty. cbn [strings.countFrom]. now rewrite HasPrefix_byte, Z.eqb_refl.
  - cbn [lacks] in Ha. apply andb_true_iff in Ha as [Hb Ha].
    rewrite app_cons. cbn [strings.countFrom]. rewrite HasPrefix_byte.
    apply negb_true_iff in Hb. now rewrite Hb, IH.
Qed.

Lemma countFrom_none (a : string) :
  lacks c a = true -> strings.countFrom 0 a sep = 0%nat.
Proof.
  induction a as [|b a IH]; intros Ha; [reflexivity|].
  cbn [lacks] in Ha. apply andb_true_iff in Ha as [Hb Ha].
  cbn [strings.countFrom]. rewrite HasPrefix_byte.
  apply negb_true_iff in Hb. now rewrite Hb, IH.
Qed.

Lemma countFrom_le (s : string) : (strings.countFrom 0 s sep <= len s)%nat.
Proof.
  induction s as [|b s IH]; [cbn; lia|].
  cbn [strings.countFrom]. rewrite HasPrefix_byte.
  unfold len in *. cbn [sep String.length Nat.sub].
  destruct (_ =? _); lia.
Qed.

Lemma Split_count (s : string) :
  strings.Split s sep = strings.splitLoop (strings.countFrom 0 s sep) s sep.
Proof.
  unfold strings.Split, sep, strings.Count. fold sep.
  pose proof (countFrom_le s). f_equal. lia.
Qed.

(** The text before the first separator is the first piece, and the rest
    is split in turn. *)
Lemma Split_cons (a rest : string) :
  lacks c a = true ->
  strings.Split (a ++ String c rest)%string sep = a :: strings.Split rest sep.
Proof.
  intros Ha. rewrite !Split_count, countFrom_cons by assumption.
  cbn [strings.splitLoop]. unfold strings.Index.
  rewrite indexFrom_lacks by assumption. rewrite Z.add_0_l.
  replace (Z.of_nat (len a) <? 0) with false by (symmetry; apply Z.ltb_ge; lia).
  rewrite Nat2Z.id, take_app. f_equal.
  replace (len a + len sep)%nat with (len (a ++ sep)%string) by apply len_app.
  replace (a ++ String c rest)%string with ((a ++ sep) ++ rest)%string.
  - now rewrite drop_app.
  - unfold sep. clear. induction a as [|b a IH]; [reflexivity|].
    rewrite !app_cons. now rewrite IH.
Qed.

Lemma Split_lacks (a : string) :
  lacks c a = true -> strings.Split a sep = [a].
Proof.
  intros Ha. rewrite Split_count, countFrom_none by assumption. reflexivity.
Qed.

End SplitByte.

(** ** Texts of numbers *)

Lemma isDigit_range (c : Z) : strconv.isDigit c = true <-> 48 <= c <= 57.
Proof.
  unfold strconv.isDigit. change (code "0") with 48. change (code "9") with 57.
  rewrite andb_true_iff, !Z.leb_le. tauto.
Qed.

Lemma Atoi_loop_digits (s : string) :
  forall n, allDigits s = true -> strconv.Atoi_loop n s = Some (decimal n s).
Proof.
  induction s as [|b s IH]; intros n Hs; [reflexivity|].
  cbn [allDigits] in Hs. apply andb_true_iff in Hs as [Hb Hs].
  apply isDigit_range in Hb.
  cbn [strconv.Atoi_loop decimal]. change (code "0") with 48.
  rewrite (Z.mod_small (code b - 48)) by lia.
  replace (9 <? code b - 48) with false by (symmetry; apply Z.ltb_ge; lia).
  now apply IH.
Qed.

(** [Atoi] reads a text of 1 to 18 digits as the number it denotes. *)
Lemma Atoi_digits (s : string) :
  allDigits s = true -> (0 < len s < 19)%nat ->
  strconv.Atoi s = (decimal 0 s, None).
Proof.
  intros Hs Hlen. unfold strconv.Atoi.
  replace ((0 <? Z.of_nat (len s)) && (Z.of_nat (len s) <? 19)) with true
    by (symmetry; apply andb_true_iff; split; apply Z.ltb_lt; lia).
  destruct s as [|b s]; [cbn in Hlen; lia|].
  pose proof (Atoi_loop_digits _ 0 Hs) as Hloop.
  cbn [allDigits] in Hs. apply andb_true_iff in Hs as [Hb _].
  apply isDigit_range in Hb. cbv zeta.
  change (code "-") with 45. change (code "+") with 43.
  replace (code b =? 45) with false by (symmetry; apply Z.eqb_neq; lia).
  replace (code b =? 43) with false by (symmetry; apply Z.eqb_neq; lia).
  cbn [orb andb]. now rewrite Hloop.
Qed.

(** Up to 18 digits denote a number below [10 ^ 18]: the sum that the fast
    path of [Atoi] builds stays within [int]. *)
Lemma decimal_bounds (s : string) :
  forall n, allDigits s = true -> 0 <= n ->
  n * 10 ^ Z.of_nat (len s) <= decimal n s < (n + 1) * 10 ^ Z.of_nat (len s).
Proof.
  induction s as [|b s IH]; intros n Hs Hn.
  - cbn. lia.
  - cbn [allDigits] in Hs. apply andb_true_iff in Hs as [Hb Hs].
    apply isDigit_range in Hb. cbn [decimal]. change (code "0") with 48.
    specialize (IH (n * 10 + (code b - 48)) Hs ltac:(lia)).
    unfold len in *. cbn [String.length]. rewrite Nat2Z.inj_succ, Z.pow_succ_r by lia.
    nia.
Qed.

Lemma allDigits_lacks (c : byte) (s : string) :
  strconv.isDigit (code c) = false -> allDigits s = true -> lacks c s = true.
Proof.
  intros Hc. induction s as [|b s IH]; [reflexivity|].
  cbn [allDigits lacks]. intros [Hb Hs]%andb_true_iff.
  rewrite IH, andb_true_r by assumption. apply negb_true_iff, Z.eqb_neq.
  intros E. rewrite E in Hb. congruence.
Qed.

(** An error of syntax comes with the value 0. *)
Lemma Atoi_syntax (s : string) (v : Z) :
  strconv.Atoi s = (v, Some strconv.ErrSyntax) -> v = 0.
Proof.
  unfold strconv.Atoi, strconv.ParseInt, strconv.ParseUint.
  repeat case_match; try (intros [= <-]; reflexivity); try discriminate.
Qed.

(** ** The date, the time and the prices as texts *)

Section Fields.

Variable unrepresentable : float64.t -> Z.

(** X13.  For a date [y-m-d] whose last part is 1 to 18 digits, the day rule
    adds 6 exactly when the number [d] is odd; the year and the month may
    be any texts without a hyphen, and no calendar is consulted. *)
Theorem odd_day_rule (receipt : Receipt) (y m d : string) (points : Z) :
  DateOfPurchase receipt = (y ++ "-" ++ m ++ "-" ++ d)%string ->
  lacks "-" y = true -> lacks "-" m = true ->
  allDigits d = true -> (0 < len d < 19)%nat ->
  oddDayRule receipt points
  = Return (if Z.odd (decimal 0 d) then Int.add points 6 else points).
Proof.
  intros Hdate Hy Hm Hd Hlen. unfold oddDayRule. rewrite Hdate.
  change ("-" ++ m ++ "-" ++ d)%string with (String "-"%char (m ++ String "-"%char d)).
  rewrite (Split_cons "-"%char y _ Hy), (Split_cons "-"%char m _ Hm).
  rewrite (Split_lacks "-"%char d) by now apply allDigits_lacks.
  unfold index. cbn [nth_error mbind outcome_bind]. rewrite (Atoi_digits d Hd Hlen).
  cbn. now rewrite rem_2_odd.
Qed.

(** X14.  For a time [h:rest] whose first part is 1 to 18 digits, the
    afternoon rule adds 10 exactly when [14 <= h < 16]: 14:00 itself
    counts, and what follows the colon is not read. *)
Theorem afternoon_rule (receipt : Receipt) (h rest : string) (points : Z) :
  TimeOfPurchase receipt = (h ++ ":" ++ rest)%string ->
  allDigits h = true -> (0 < len h < 19)%nat ->
  afternoonRule receipt points
  = Return (if (14 <=? decimal 0 h) && (decimal 0 h <? 16)
            then Int.add points 10 else points).
Proof.
  intros Htime Hh Hlen. unfold afternoonRule. rewrite Htime.
  change (":" ++ rest)%string with (String ":"%char rest).
  rewrite (Split_cons ":"%char h rest) by now apply allDigits_lacks.
  unfold index. cbn [nth_error mbind outcome_bind]. now rewrite (Atoi_digits h Hh Hlen).
Qed.

(** X15.  An item whose price is not the text of a number adds nothing,
    whatever its description. *)
Theorem unparsable_price_adds_nothing (item : Item) (points : Z) (v : float64.t) :
  Int.in_range points ->
  strconv.ParseFloat (Price item) = (v, Some strconv.ErrSyntax) ->
  descriptionStep unrepresentable points item = points.
Proof.
  intros Hp Hprice. unfold descriptionStep. rewrite Hprice.
  apply ParseFloat_error in Hprice. subst v.
  destruct (_ =? 0); [|reflexivity].
  change (int_of_float64 unrepresentable
            (math.Ceil (float64.mul float64.zero float64.c0_2))) with 0.
  unfold Int.add. rewrite Z.add_0_r. now apply wrap_small.
Qed.

(** X16.  A day that is not the text of a number reads as 0 and adds
    nothing. *)
Theorem unparsable_day_adds_nothing (receipt : Receipt) (d : string) (v points : Z) :
  nth_error (strings.Split (DateOfPurchase receipt) "-") 2 = Some d ->
  strconv.Atoi d = (v, Some strconv.ErrSyntax) ->
  oddDayRule receipt points = Return points.
Proof.
  intros Hd Hday. unfold oddDayRule, index. rewrite Hd. cbn [mbind outcome_bind].
  rewrite Hday. apply Atoi_syntax in Hday. now subst v.
Qed.

(** X17.  An hour that is not the text of a number reads as 0 and adds
    nothing. *)
Theorem unparsable_hour_adds_nothing (receipt : Receipt) (h : string) (v points : Z) :
  nth_error (strings.Split (TimeOfPurchase receipt) ":") 0 = Some h ->
  strconv.Atoi h = (v, Some strconv.ErrSyntax) ->
  afternoonRule receipt points = Return points.
Proof.
  intros Hh Hhour. unfold afternoonRule, index. rewrite Hh. cbn [mbind outcome_bind].
  rewrite Hhour. apply Atoi_syntax in Hhour. now subst v.
Qed.

End Fields.

Lemma odd_day_rule_witness : oddDayRule readme 0 = Return 6.
Proof.
  apply (odd_day_rule readme "2022" "01" "01" 0); try reflexivity.
  cbn. lia.
Defined.

Lemma afternoon_rule_witness :
  afternoonRule (mkReceipt "Target" "2022-01-01" "14:00" "35.35" [dew]) 0 = Return 10.
Proof.
  apply (afternoon_rule (mkReceipt "Target" "2022-01-01" "14:00" "35.35" [dew])
           "14" "00" 0); try reflexivity.
  cbn. lia.
Defined.

Lemma unparsable_price_adds_nothing_witness :
  descriptionStep amd64 6 (mkItem "Mountain Dew" "6,49") = 6.
Proof.
  apply (unparsable_price_adds_nothing amd64 (mkItem "Mountain Dew" "6,49") 6
           float64.zero).
  - unfold Int.in_range, Int.min, Int.max. lia.
  - reflexivity.
Defined.

Lemma unparsable_day_adds_nothing_witness :
  oddDayRule (mkReceipt "Target" "2022-01-1st" "13:01" "35.35" [dew]) 6 = Return 6.
Proof.
  apply (unparsable_day_adds_nothing
           (mkReceipt "Target" "2022-01-1st" "13:01" "35.35" [dew]) "1st" 0 6);
    reflexivity.
Defined.

Lemma unparsable_hour_adds_nothing_witness :
  afternoonRule (mkReceipt "Target" "2022-01-01" "2pm" "35.35" [dew]) 6 = Return 6.
Proof.
  apply (unparsable_hour_adds_nothing
           (mkReceipt "Target" "2022-01-01" "2pm" "35.35" [dew]) "2pm" 0 6);
    reflexivity.
Defined.

(** X18.  White space around a description does not count: when the
    description is a text between two runs of ASCII white space, and the
    text begins and ends with ASCII bytes that are not white space, the
    length that the rule takes is the length of the text. *)
Theorem description_trimmed (item : Item) (pre core post : string) :
  Description item = (pre ++ core ++ post)%string ->
  blank pre = true -> blank post = true -> trimmed core = true ->
  trimmedLength item = len core.
Proof.
  intros Hd Hpre Hpost Hcore. unfold trimmedLength.
  now rewrite Hd, TrimSpace_ascii.
Qed.

Lemma description_trimmed_witness :
  trimmedLength (mkItem "   Klarbrunn 12-PK 12 FL OZ  " "12.00") = 24%nat.
Proof.
  apply (description_trimmed (mkItem "   Klarbrunn 12-PK 12 FL OZ  " "12.00")
           "   " "Klarbrunn 12-PK 12 FL OZ" "  "); reflexivity.
Defined.
